(** * cairo-vm.go: the step engine and its write-once memory

    A shallow embedding of [pkg/vm/memory/memory.go] and of the virtual
    machine of package [vm] (RunInstruction, ComputeOperands, the
    deductions, OpcodeAssertions, the register updates and the trace
    relocation), with the properties of the specification stated over it.

    Conventions.
    - Go's [uint] and [uint64] are [Z] in [0, 2^64) with the wrap-around
      written out ([wrap64]); Go's [int] is a [Z].
    - A Go [error] is its message; a function returning [(T, error)] returns
      a [Result T].  A run-time panic (nil dereference, index out of range)
      is the third outcome, [Panic].
    - A pointer [*T] that may be nil is an [option T].
    - Methods that mutate their receiver take the state and return it. *)

From Stdlib Require Import ZArith Lia List.
From stdpp Require Import base option gmap strings pretty.

Open Scope Z_scope.

(** ** Errors, results, machine integers *)

Definition Error := string.

Inductive Result (A : Type) : Type :=
| Ok (a : A)
| Err (e : Error)
| Panic.
Arguments Ok {A} a.
Arguments Err {A} e.
Arguments Panic {A}.

Definition wrap64 (z : Z) : Z := z mod 2 ^ 64.

(** The conversion [int(x)] of a [uint]: the same 64 bits read as signed. *)
Definition int_of_uint (x : Z) : Z :=
  if x <? 2 ^ 63 then x else x - 2 ^ 64.

(** ** Package lambdaworks *)

Module lambdaworks.

(** Modelled from the spec: the field arithmetic behind the C bindings
    (lambdaworks.h: from, zero, one, add, sub, mul, lw_div) is not part of
    the Go sources.  A felt is an element of the prime field of modulus
    [P = 2^251 + 17 * 2^192 + 1], kept as its representative in [0, P);
    division multiplies by the modular inverse. *)
Definition P : Z := 2 ^ 251 + 17 * 2 ^ 192 + 1.

Definition Felt := Z.

(** Modelled from the spec: square-and-multiply modulo [P]. *)
Fixpoint pow_mod (b : Z) (e : positive) : Z :=
  match e with
  | xH => b mod P
  | xO e' => let r := pow_mod b e' in (r * r) mod P
  | xI e' => let r := pow_mod b e' in ((r * r) mod P * b) mod P
  end.

(** Modelled from the spec: the felt of a [uint64], the constants and the
    field operations, each the C function of the same role taken modulo
    [P]. *)
Definition FeltFromUint64 (value : Z) : Felt := value mod P.
Definition FeltZero : Felt := 0.
Definition FeltOne : Felt := 1.
Definition Add (a b : Felt) : Felt := (a + b) mod P.
Definition Sub (a b : Felt) : Felt := (a - b) mod P.
Definition Mul (a b : Felt) : Felt := (a * b) mod P.

(** Modelled from the spec: the inverse of [b] modulo the prime [P], as
    [b ^ (P - 2)]. *)
Definition inverse (b : Felt) : Felt :=
  match P - 2 with
  | Zpos e => pow_mod b e
  | _ => 0
  end.
(** Modelled from the spec: division is multiplication by the modular
    inverse. *)
Definition Div (a b : Felt) : Felt := (a * inverse b) mod P.

(** [func (f Felt) IsZero() bool { return f == FeltZero() }] *)
Definition IsZero (f : Felt) : bool := bool_decide (f = FeltZero).

(** [ToU64] returns the low limb when the three high limbs are zero, that
    is the value when it is below [2^64], and an error otherwise. *)
Definition ToU64 (felt : Felt) : Result Z :=
  if (0 <=? felt) && (felt <? 2 ^ 64) then Ok felt
  else Err "Cannot convert felt to u64".

End lambdaworks.

(** ** Package memory *)

Module memory.
Import lambdaworks.

(** Modelled from the spec: relocatable.go is not among the sources.
    [Relocatable] is [(segment_index : int, offset : uint)]. *)
Record Relocatable := NewRelocatable {
  SegmentIndex : Z;
  Offset : Z
}.

#[global] Instance Relocatable_eq_dec : EqDecision Relocatable.
Proof. solve_decision. Defined.

#[global] Instance Relocatable_countable : Countable Relocatable.
Proof.
  refine (inj_countable' (fun r => (SegmentIndex r, Offset r))
                         (fun p => NewRelocatable p.1 p.2) _).
  by intros [].
Defined.

(** Modelled from the spec: a [MaybeRelocatable] is the tagged union of a
    felt and a relocatable. *)
Inductive MaybeRelocatable :=
| MRFelt (f : Felt)
| MRRel (r : Relocatable).

#[global] Instance MaybeRelocatable_eq_dec : EqDecision MaybeRelocatable.
Proof. solve_decision. Defined.

(** Modelled from the spec: the two constructors of relocatable.go. *)
Definition NewMaybeRelocatableFelt (f : Felt) : MaybeRelocatable := MRFelt f.
Definition NewMaybeRelocatableRelocatable (r : Relocatable) : MaybeRelocatable :=
  MRRel r.

(** Modelled from the spec: the accessors return the value and whether the
    variant matched; on a mismatch the value is Go's zero value. *)
Definition GetFelt (m : MaybeRelocatable) : Felt * bool :=
  match m with
  | MRFelt f => (f, true)
  | MRRel _ => (0, false)
  end.

(** Modelled from the spec: the relocatable of a value; for a felt the zero
    value [(0, 0)] and [false]. *)
Definition GetRelocatable (m : MaybeRelocatable) : Relocatable * bool :=
  match m with
  | MRRel r => (r, true)
  | MRFelt _ => (NewRelocatable 0 0, false)
  end.

(** Modelled from the spec: equality of addresses, field by field. *)
Definition Relocatable_IsEqual (r r1 : Relocatable) : bool :=
  bool_decide (SegmentIndex r = SegmentIndex r1) &&
  bool_decide (Offset r = Offset r1).

(** Modelled from the spec: equality of values, same variant and same
    content. *)
Definition IsEqual (m m1 : MaybeRelocatable) : bool :=
  match m, m1 with
  | MRFelt a, MRFelt b => bool_decide (a = b)
  | MRRel a, MRRel b => Relocatable_IsEqual a b
  | _, _ => false
  end.

(** Modelled from the spec: a value is zero when it is the felt zero. *)
Definition IsZero (m : MaybeRelocatable) : bool :=
  let '(felt, is_int) := GetFelt m in is_int && lambdaworks.IsZero felt.

(** Modelled from the spec: the arithmetic of addresses (sections 3, 4.4
    and 9).  Adding to an offset checks the u64 range. *)
Definition AddUint (r : Relocatable) (other : Z) : Result Relocatable :=
  if Offset r + other <? 2 ^ 64
  then Ok (NewRelocatable (SegmentIndex r) (Offset r + other))
  else Err "OffsetOverflow".

(** Modelled from the spec: [Relocatable + signed offset] with the u64 range
    check on the offset field (4.4). *)
Definition add_i64_offset (r : Relocatable) (off : Z) : Result Relocatable :=
  let n := Offset r + off in
  if (0 <=? n) && (n <? 2 ^ 64)
  then Ok (NewRelocatable (SegmentIndex r) n)
  else Err "OffsetOverflow".

(** Modelled from the spec: a felt can be added when it fits in a u64 and
    does not wrap the offset (3). *)
Definition AddFelt (r : Relocatable) (other : Felt) : Result Relocatable :=
  match ToU64 other with
  | Ok n => AddUint r n
  | Err e => Err e
  | Panic => Panic
  end.

(** Modelled from the spec: an address plus a value; two relocatables
    cannot be added (3). *)
Definition AddMaybeRelocatable (r : Relocatable) (other : MaybeRelocatable)
  : Result Relocatable :=
  match other with
  | MRFelt f => AddFelt r f
  | MRRel _ => Err "RelocatableAdd"
  end.

(** Modelled from the spec: an address minus a felt that fits in a u64 and
    does not exceed the offset (3). *)
Definition SubFelt (r : Relocatable) (other : Felt) : Result Relocatable :=
  match ToU64 other with
  | Ok n => add_i64_offset r (- n)
  | Err e => Err e
  | Panic => Panic
  end.

(** Modelled from the spec: [Add] of two values (3): rel+felt is a rel,
    felt+felt a felt, rel+rel an error. *)
Definition MaybeRelocatable_Add (a b : MaybeRelocatable) : Result MaybeRelocatable :=
  match a, b with
  | MRFelt x, MRFelt y => Ok (MRFelt (lambdaworks.Add x y))
  | MRRel r, MRFelt y =>
      match AddFelt r y with
      | Ok r' => Ok (MRRel r') | Err e => Err e | Panic => Panic
      end
  | MRFelt x, MRRel r =>
      match AddFelt r x with
      | Ok r' => Ok (MRRel r') | Err e => Err e | Panic => Panic
      end
  | MRRel _, MRRel _ => Err "RelocatableAdd"
  end.

(** Modelled from the spec: [Sub] of two values (3): rel-rel in one segment
    is the felt difference of the offsets, rel-felt a rel, felt-felt a felt,
    felt-rel an error. *)
Definition MaybeRelocatable_Sub (a b : MaybeRelocatable) : Result MaybeRelocatable :=
  match a, b with
  | MRFelt x, MRFelt y => Ok (MRFelt (lambdaworks.Sub x y))
  | MRRel r, MRFelt y =>
      match SubFelt r y with
      | Ok r' => Ok (MRRel r') | Err e => Err e | Panic => Panic
      end
  | MRRel r, MRRel s =>
      if bool_decide (SegmentIndex r = SegmentIndex s)
      then Ok (MRFelt (lambdaworks.Sub (FeltFromUint64 (Offset r))
                                       (FeltFromUint64 (Offset s))))
      else Err "RelocatableSub"
  | MRFelt _, MRRel _ => Err "RelocatableSub"
  end.

(** *** memory.go *)

(** [type AddressSet map[Relocatable]bool] *)
Definition AddressSet := gmap Relocatable bool.

Definition NewAddressSet : AddressSet := ∅.

Definition AddressSet_Add (set : AddressSet) (element : Relocatable) : AddressSet :=
  <[element := true]> set.

Definition Contains (set : AddressSet) (element : Relocatable) : bool :=
  default false (set !! element).

(** What a validation rule can read of the [*Memory] it is handed: the
    fields of [Memory] are unexported, so a rule (they live in package
    builtins) reads through [Get] and [NumSegments]; by 4.1 of the
    specification rules do not write. *)
Record MemoryView := {
  view_data : gmap Relocatable MaybeRelocatable;
  view_num_segments : Z
}.

(** A function that validates a memory address and returns a list of
    validated addresses. *)
Definition ValidationRule := MemoryView -> Relocatable -> Result (list Relocatable).

Record Memory := {
  data : gmap Relocatable MaybeRelocatable;
  num_segments : Z;
  validation_rules : gmap Z ValidationRule;
  validated_addresses : AddressSet
}.

Definition NewMemory : Memory :=
  {| data := ∅; num_segments := 0;
     validation_rules := ∅; validated_addresses := NewAddressSet |}.

Definition NumSegments (m : Memory) : Z := num_segments m.

Definition view (m : Memory) : MemoryView :=
  {| view_data := data m; view_num_segments := num_segments m |}.

Definition set_data (m : Memory) (d : gmap Relocatable MaybeRelocatable) : Memory :=
  {| data := d; num_segments := num_segments m;
     validation_rules := validation_rules m;
     validated_addresses := validated_addresses m |}.

Definition set_validated_addresses (m : Memory) (s : AddressSet) : Memory :=
  {| data := data m; num_segments := num_segments m;
     validation_rules := validation_rules m;
     validated_addresses := s |}.

Definition AddValidationRule (m : Memory) (segment_index : Z) (rule : ValidationRule)
  : Memory :=
  {| data := data m; num_segments := num_segments m;
     validation_rules := <[segment_index := rule]> (validation_rules m);
     validated_addresses := validated_addresses m |}.

Definition ErrNegativeSegment : Error :=
  "Segment index of key is negative - unimplemented".
Definition ErrUnallocatedSegment : Error :=
  "Error: Inserting into a non allocated segment".
Definition ErrInconsistent : Error :=
  "Memory is write-once, cannot overwrite memory value".
Definition ErrNotFound : Error := "Memory Get: Value not found".

(** Applies the validation rule for the addr's segment if any. *)
Definition validateAddress (m : Memory) (addr : Relocatable) : Result unit * Memory :=
  if (SegmentIndex addr <? 0) || Contains (validated_addresses m) addr
  then (Ok tt, m)
  else
    match validation_rules m !! wrap64 (SegmentIndex addr) with
    | None => (Ok tt, m)
    | Some rule =>
        match rule (view m) addr with
        | Err e => (Err e, m)
        | Panic => (Panic, m)
        | Ok validated =>
            (Ok tt,
             set_validated_addresses m
               (fold_left AddressSet_Add validated (validated_addresses m)))
        end
    end.

(** Inserts a value in some memory address.  [val] is a pointer: the two
    guards come first, then [*val] is read. *)
Definition Insert (m : Memory) (addr : Relocatable) (val : option MaybeRelocatable)
  : Result unit * Memory :=
  if SegmentIndex addr <? 0 then (Err ErrNegativeSegment, m)
  else if SegmentIndex addr >=? int_of_uint (num_segments m)
  then (Err ErrUnallocatedSegment, m)
  else
    match val with
    | None => (Panic, m)
    | Some v =>
        match data m !! addr with
        | Some prev_elem =>
            if bool_decide (prev_elem = v)
            then validateAddress (set_data m (<[addr := v]> (data m))) addr
            else (Err ErrInconsistent, m)
        | None => validateAddress (set_data m (<[addr := v]> (data m))) addr
        end
    end.

(** Gets some value stored in the memory address [addr]. *)
Definition Get (m : Memory) (addr : Relocatable) : Result MaybeRelocatable * Memory :=
  if SegmentIndex addr <? 0 then (Err ErrNegativeSegment, m)
  else
    match data m !! addr with
    | None => (Err ErrNotFound, m)
    | Some value => (Ok value, m)
    end.

(** Applies validation_rules to every memory address, if applicable.  The
    loop ranges over the Go map [m.data], whose iteration order is not
    specified: the order is an argument, and the properties of the loop are
    stated for every order that enumerates the stored addresses.  The loop
    stops at the first error. *)
Fixpoint validate_addresses (addrs : list Relocatable) (m : Memory) : Result unit * Memory :=
  match addrs with
  | [] => (Ok tt, m)
  | addr :: rest =>
      match validateAddress m addr with
      | (Ok _, m') => validate_addresses rest m'
      | (Err e, m') => (Err e, m')
      | (Panic, m') => (Panic, m')
      end
  end.

Definition ValidateExistingMemory (order : list Relocatable) (m : Memory)
  : Result unit * Memory :=
  validate_addresses order m.

End memory.

(** *** The segment manager *)

Module segments.
Import lambdaworks memory.

(** Modelled from the spec: segments.go is not among the sources.  The
    manager holds the memory and, once computed, the effective size of every
    segment (4.2): the size of a non-temporary segment is one more than the
    largest stored offset, 0 when nothing is stored; the relocation table has
    [num_segments + 1] entries, [T[0] = 1] and [T[i+1] = T[i] + size[i]]; the
    relocated memory maps [T[seg] + off] to the felt projection of the value
    stored at [(seg, off)]. *)
Record MemorySegmentManager := {
  SegmentSizes : option (list Z);
  Memory_ : Memory
}.


Definition set_Memory (s : MemorySegmentManager) (m : Memory) : MemorySegmentManager :=
  {| SegmentSizes := SegmentSizes s; Memory_ := m |}.

(** Modelled from the spec: one more than the largest offset stored in
    segment [i], 0 when the segment is empty (4.2). *)
Definition segment_size (d : gmap Relocatable MaybeRelocatable) (i : Z) : Z :=
  map_fold (fun addr _ acc =>
              if bool_decide (SegmentIndex addr = i)
              then Z.max acc (Offset addr + 1) else acc) 0 d.

(** Modelled from the spec: the sizes of the segments [0 .. num_segments). *)
Definition ComputeEffectiveSizes (s : MemorySegmentManager) : MemorySegmentManager :=
  {| SegmentSizes :=
       Some (map (segment_size (data (Memory_ s)))
                 (map Z.of_nat (seq 0 (Z.to_nat (num_segments (Memory_ s))))));
     Memory_ := Memory_ s |}.

(** Modelled from the spec: [T[0] = base], [T[i+1] = T[i] + size[i]]. *)
Fixpoint relocation_table (base : Z) (sizes : list Z) : list Z :=
  match sizes with
  | [] => [base]
  | size :: rest => base :: relocation_table (wrap64 (base + size)) rest
  end.

(** Modelled from the spec: the table from base 1; [false] when the sizes
    were not computed. *)
Definition RelocateSegments (s : MemorySegmentManager) : list Z * bool :=
  match SegmentSizes s with
  | None => ([], false)
  | Some sizes => (relocation_table 1 sizes, true)
  end.

(** Modelled from the spec: the relocated address [T[seg] + off].  The
    callers use the result as a bare [uint], so an index outside the table
    is a run-time panic. *)
Definition RelocateAddress (r : Relocatable) (relocationTable : list Z) : Result Z :=
  if SegmentIndex r <? 0 then Panic
  else match relocationTable !! Z.to_nat (SegmentIndex r) with
       | Some base => Ok (wrap64 (base + Offset r))
       | None => Panic
       end.

(** Modelled from the spec: the felt projection of a value: a felt is
    itself, a relocatable becomes [Felt(T[seg] + off)]. *)
Definition RelocateValue (v : MaybeRelocatable) (relocationTable : list Z) : Result Felt :=
  match v with
  | MRFelt f => Ok f
  | MRRel r =>
      if SegmentIndex r <? 0 then Err "UnrelocatedMemory"
      else match relocationTable !! Z.to_nat (SegmentIndex r) with
           | Some base => Ok (FeltFromUint64 (wrap64 (base + Offset r)))
           | None => Err "UnrelocatedMemory"
           end
  end.

(** Modelled from the spec: the flat image of the memory under the table
    (4.2). *)
Definition RelocateMemory (s : MemorySegmentManager) (relocationTable : list Z)
  : Result (gmap Z Felt) :=
  map_fold (fun addr v acc =>
              match acc with
              | Ok rm =>
                  match RelocateAddress addr relocationTable with
                  | Ok a =>
                      match RelocateValue v relocationTable with
                      | Ok f => Ok (<[a := f]> rm)
                      | Err e => Err e
                      | Panic => Panic
                      end
                  | Err e => Err e
                  | Panic => Panic
                  end
              | _ => acc
              end) (Ok ∅) (data (Memory_ s)).

End segments.

(** ** Package builtins *)

Module builtins.
Import memory.

(** The part of the [BuiltinRunner] interface the step engine calls: the
    base of the builtin's segment and its deduction hook.  The hook reads the
    memory it is given (4.10). *)
Record BuiltinRunner := {
  Base : Relocatable;
  Name : string;
  DeduceMemoryCell : Relocatable -> Memory -> Result (option MaybeRelocatable)
}.

End builtins.

(** ** Package vm *)

Module vm.
Import lambdaworks memory segments.

(** *** Instructions and the run context *)

(** Modelled from the spec: instruction.go and run_context.go are not among
    the sources.  The decoded instruction of 3 (the derived [FpUpdate] is a
    field, which the register update reads), its [Size] and the address
    computation of 4.4. *)
Inductive RegisterT := AP | FP.
Inductive Op1SrcT := Op1SrcImm | Op1SrcAP | Op1SrcFP | Op1SrcOp0.
Inductive ResLogicT := ResOp1 | ResAdd | ResMul | ResUnconstrained.
Inductive PcUpdateT := PcUpdateRegular | PcUpdateJump | PcUpdateJumpRel | PcUpdateJnz.
Inductive ApUpdateT := ApUpdateRegular | ApUpdateAdd | ApUpdateAdd1 | ApUpdateAdd2.
Inductive FpUpdateT := FpUpdateRegular | FpUpdateAPPlus2 | FpUpdateDst.
Inductive OpcodeT := NOp | AssertEq | Call | Ret.

Record Instruction := {
  Off0 : Z;
  Off1 : Z;
  Off2 : Z;
  DstReg : RegisterT;
  Op0Reg : RegisterT;
  Op1Addr : Op1SrcT;
  ResLogic : ResLogicT;
  PcUpdate : PcUpdateT;
  ApUpdate : ApUpdateT;
  FpUpdate : FpUpdateT;
  Opcode : OpcodeT
}.

(** Modelled from the spec: [size() = 2] if [op1_addr == IMM] else [1]. *)
Definition Size (i : Instruction) : Z :=
  match Op1Addr i with
  | Op1SrcImm => 2
  | _ => 1
  end.

(** Modelled from the spec: the three registers (3). *)
Record RunContextT := {
  Pc : Relocatable;
  Ap : Relocatable;
  Fp : Relocatable
}.

(** Modelled from the spec: [dst_addr = (dst_register == AP ? ap : fp) +
    off0] (4.4). *)
Definition ComputeDstAddr (rc : RunContextT) (instruction : Instruction)
  : Result Relocatable :=
  match DstReg instruction with
  | AP => add_i64_offset (Ap rc) (Off0 instruction)
  | FP => add_i64_offset (Fp rc) (Off0 instruction)
  end.

(** Modelled from the spec: [op0_addr = (op0_register == AP ? ap : fp) +
    off1] (4.4). *)
Definition ComputeOp0Addr (rc : RunContextT) (instruction : Instruction)
  : Result Relocatable :=
  match Op0Reg instruction with
  | AP => add_i64_offset (Ap rc) (Off1 instruction)
  | FP => add_i64_offset (Fp rc) (Off1 instruction)
  end.

(** Modelled from the spec: [op1_addr] by mode (4.4): IMM is [pc + off2]
    and [off2] must be 1; AP and FP add [off2] to the register; OP0 adds it
    to the value of op0, which must be a relocatable. *)
Definition ComputeOp1Addr (rc : RunContextT) (instruction : Instruction)
  (op0 : option MaybeRelocatable) : Result Relocatable :=
  match Op1Addr instruction with
  | Op1SrcImm =>
      if bool_decide (Off2 instruction = 1)
      then add_i64_offset (Pc rc) (Off2 instruction)
      else Err "UnknownOp0"
  | Op1SrcAP => add_i64_offset (Ap rc) (Off2 instruction)
  | Op1SrcFP => add_i64_offset (Fp rc) (Off2 instruction)
  | Op1SrcOp0 =>
      match op0 with
      | Some (MRRel r) => add_i64_offset r (Off2 instruction)
      | _ => Err "UnknownOp0"
      end
  end.

(** *** The machine *)

(** The trace entries: the fields [RunInstruction] and [RelocateTrace]
    fill. *)
Module TraceEntry.
Record t := Build { Pc : Relocatable; Ap : Relocatable; Fp : Relocatable }.
End TraceEntry.

Module RelocatedTraceEntry.
Record t := Build { Pc : Felt; Ap : Felt; Fp : Felt }.
End RelocatedTraceEntry.

Record VirtualMachine := {
  RunContext : RunContextT;
  CurrentStep : Z;
  Segments : MemorySegmentManager;
  BuiltinRunners : list builtins.BuiltinRunner;
  Trace : list TraceEntry.t;
  RelocatedTrace : list RelocatedTraceEntry.t;
  RelocatedMemory : option (gmap Z Felt)
}.


Definition set_RunContext (v : VirtualMachine) (rc : RunContextT) : VirtualMachine :=
  {| RunContext := rc; CurrentStep := CurrentStep v; Segments := Segments v;
     BuiltinRunners := BuiltinRunners v; Trace := Trace v;
     RelocatedTrace := RelocatedTrace v; RelocatedMemory := RelocatedMemory v |}.

Definition set_CurrentStep (v : VirtualMachine) (n : Z) : VirtualMachine :=
  {| RunContext := RunContext v; CurrentStep := n; Segments := Segments v;
     BuiltinRunners := BuiltinRunners v; Trace := Trace v;
     RelocatedTrace := RelocatedTrace v; RelocatedMemory := RelocatedMemory v |}.

Definition set_Segments (v : VirtualMachine) (s : MemorySegmentManager) : VirtualMachine :=
  {| RunContext := RunContext v; CurrentStep := CurrentStep v; Segments := s;
     BuiltinRunners := BuiltinRunners v; Trace := Trace v;
     RelocatedTrace := RelocatedTrace v; RelocatedMemory := RelocatedMemory v |}.

Definition set_Trace (v : VirtualMachine) (t : list TraceEntry.t) : VirtualMachine :=
  {| RunContext := RunContext v; CurrentStep := CurrentStep v; Segments := Segments v;
     BuiltinRunners := BuiltinRunners v; Trace := t;
     RelocatedTrace := RelocatedTrace v; RelocatedMemory := RelocatedMemory v |}.

Definition set_RelocatedTrace (v : VirtualMachine) (t : list RelocatedTraceEntry.t)
  : VirtualMachine :=
  {| RunContext := RunContext v; CurrentStep := CurrentStep v; Segments := Segments v;
     BuiltinRunners := BuiltinRunners v; Trace := Trace v;
     RelocatedTrace := t; RelocatedMemory := RelocatedMemory v |}.

Definition set_RelocatedMemory (v : VirtualMachine) (m : option (gmap Z Felt))
  : VirtualMachine :=
  {| RunContext := RunContext v; CurrentStep := CurrentStep v; Segments := Segments v;
     BuiltinRunners := BuiltinRunners v; Trace := Trace v;
     RelocatedTrace := RelocatedTrace v; RelocatedMemory := m |}.

Definition set_Pc (v : VirtualMachine) (r : Relocatable) : VirtualMachine :=
  set_RunContext v {| Pc := r; Ap := Ap (RunContext v); Fp := Fp (RunContext v) |}.
Definition set_Ap (v : VirtualMachine) (r : Relocatable) : VirtualMachine :=
  set_RunContext v {| Pc := Pc (RunContext v); Ap := r; Fp := Fp (RunContext v) |}.
Definition set_Fp (v : VirtualMachine) (r : Relocatable) : VirtualMachine :=
  set_RunContext v {| Pc := Pc (RunContext v); Ap := Ap (RunContext v); Fp := r |}.

(** The memory of the machine, [v.Segments.Memory]. *)
Definition vm_memory (v : VirtualMachine) : Memory := Memory_ (Segments v).

(** [p, _ := v.Segments.Memory.Get(addr)]: the pointer, nil on an error. *)
Definition Memory_Get (v : VirtualMachine) (addr : Relocatable) : option MaybeRelocatable :=
  match fst (Get (vm_memory v) addr) with
  | Ok value => Some value
  | _ => None
  end.

(** [v.Segments.Memory.Insert(addr, val)] as a statement: the returned error
    is dropped, the memory keeps what the call did to it. *)
Definition Memory_Insert_ (v : VirtualMachine) (addr : Relocatable)
  (val : option MaybeRelocatable) : Result unit * VirtualMachine :=
  match Insert (vm_memory v) addr val with
  | (Panic, m) => (Panic, set_Segments v (set_Memory (Segments v) m))
  | (_, m) => (Ok tt, set_Segments v (set_Memory (Segments v) m))
  end.

(** State and error passing for the methods that mutate the machine. *)
Definition VM (A : Type) : Type := VirtualMachine -> Result A * VirtualMachine.

Definition ret {A} (a : A) : VM A := fun v => (Ok a, v).
Definition fail {A} (e : Error) : VM A := fun v => (Err e, v).
Definition panic {A} : VM A := fun v => (Panic, v).
Definition lift {A} (r : Result A) : VM A := fun v => (r, v).
Definition bind {A B} (c : VM A) (k : A -> VM B) : VM B :=
  fun v =>
    match c v with
    | (Ok a, v') => k a v'
    | (Err e, v') => (Err e, v')
    | (Panic, v') => (Panic, v')
    end.

Notation "'let*' x ':=' c 'in' k" := (bind c (fun x => k))
  (at level 10, x pattern, c at level 200, k at level 200).

Record Operands := {
  Dst : MaybeRelocatable;
  Res : option MaybeRelocatable;
  Op0 : MaybeRelocatable;
  Op1 : MaybeRelocatable
}.

Definition ErrUnconstrainedResAssertEq : Error := "UnconstrainedResAssertEq".
Definition ErrDiffAssertValues : Error := "DiffAssertValues".
Definition ErrCantWriteReturnPc : Error := "CantWriteReturnPc".
Definition ErrCantWriteReturnFp : Error := "CantWriteReturnFp".

Definition OpcodeAssertions (vm : VirtualMachine) (instruction : Instruction)
  (operands : Operands) : Result unit :=
  match Opcode instruction with
  | AssertEq =>
      match Res operands with
      | None => Err ErrUnconstrainedResAssertEq
      | Some res =>
          if negb (IsEqual res (Dst operands)) then Err ErrDiffAssertValues
          else Ok tt
      end
  | Call =>
      match AddUint (Pc (RunContext vm)) (Size instruction) with
      | Err e => Err e
      | Panic => Panic
      | Ok new_rel =>
          let returnPC := NewMaybeRelocatableRelocatable new_rel in
          if negb (IsEqual (Op0 operands) returnPC) then Err ErrCantWriteReturnPc
          else
            let returnFP := Fp (RunContext vm) in
            let '(dstRelocatable, _) := GetRelocatable (Dst operands) in
            if negb (Relocatable_IsEqual returnFP dstRelocatable)
            then Err ErrCantWriteReturnFp
            else Ok tt
      end
  | _ => Ok tt
  end.

Definition DeduceDst (vm : VirtualMachine) (instruction : Instruction)
  (res : option MaybeRelocatable) : option MaybeRelocatable :=
  match Opcode instruction with
  | AssertEq => res
  | Call => Some (NewMaybeRelocatableRelocatable (Fp (RunContext vm)))
  | _ => None
  end.

(** Deduces the value of op0 if possible (based on dst and op1); otherwise
    returns nil.  If res is deduced in the process returns it as well. *)
Definition DeduceOp0 (vm : VirtualMachine) (instruction : Instruction)
  (dst op1 : option MaybeRelocatable)
  : Result (option MaybeRelocatable * option MaybeRelocatable) :=
  match Opcode instruction with
  | Call =>
      let deduced_op0 := Pc (RunContext vm) in
      let deduced_op0 :=
        NewRelocatable (SegmentIndex deduced_op0)
                       (wrap64 (Offset deduced_op0 + Size instruction)) in
      Ok (Some (NewMaybeRelocatableRelocatable deduced_op0), None)
  | AssertEq =>
      match ResLogic instruction, dst, op1 with
      | ResAdd, Some d, Some o =>
          match MaybeRelocatable_Sub d o with
          | Err e => Err e
          | Panic => Panic
          | Ok deduced_op0 => Ok (Some deduced_op0, dst)
          end
      | ResMul, Some d, Some o =>
          let '(dst_felt, dst_is_felt) := GetFelt d in
          let '(op1_felt, op1_is_felt) := GetFelt o in
          if dst_is_felt && op1_is_felt && negb (lambdaworks.IsZero op1_felt)
          then Ok (Some (NewMaybeRelocatableFelt (Div dst_felt op1_felt)), dst)
          else Ok (None, None)
      | _, _, _ => Ok (None, None)
      end
  | _ => Ok (None, None)
  end.

(** In the [ResMul] case [GetFelt] is called on [dst] and on [op0] without
    a nil test: it reads its receiver, so a nil pointer panics. *)
Definition DeduceOp1 (vm : VirtualMachine) (instruction : Instruction)
  (dst op0 : option MaybeRelocatable)
  : Result (option MaybeRelocatable * option MaybeRelocatable) :=
  match Opcode instruction with
  | AssertEq =>
      match ResLogic instruction with
      | ResOp1 => Ok (dst, dst)
      | ResAdd =>
          match op0, dst with
          | Some o, Some d =>
              match MaybeRelocatable_Sub d o with
              | Err e => Err e
              | Panic => Panic
              | Ok dst_rel => Ok (Some dst_rel, dst)
              end
          | _, _ => Ok (None, None)
          end
      | ResMul =>
          match dst with
          | None => Panic
          | Some d =>
              let '(dst_felt, dst_is_felt) := GetFelt d in
              match op0 with
              | None => Panic
              | Some o =>
                  let '(op0_felt, op0_is_felt) := GetFelt o in
                  if dst_is_felt && op0_is_felt && negb (lambdaworks.IsZero op0_felt)
                  then Ok (Some (NewMaybeRelocatableFelt (Div dst_felt op0_felt)), dst)
                  else Ok (None, None)
              end
          end
      | ResUnconstrained => Ok (None, None)
      end
  | _ => Ok (None, None)
  end.

Definition ComputeRes (vm : VirtualMachine) (instruction : Instruction)
  (op0 op1 : MaybeRelocatable) : Result (option MaybeRelocatable) :=
  match ResLogic instruction with
  | ResOp1 => Ok (Some op1)
  | ResAdd =>
      match MaybeRelocatable_Add op0 op1 with
      | Err e => Err e
      | Panic => Panic
      | Ok maybe_rel => Ok (Some maybe_rel)
      end
  | ResMul =>
      let '(num_op0, m_type) := GetFelt op0 in
      let '(num_op1, other_type) := GetFelt op1 in
      if m_type && other_type
      then Ok (Some (NewMaybeRelocatableFelt (Mul num_op0 num_op1)))
      else Err "ComputeResRelocatableMul"
  | ResUnconstrained => Ok None
  end.

(** Applies the corresponding builtin's deduction rules if addr's segment
    index corresponds to a builtin segment. *)
Fixpoint deduce_in (runners : list builtins.BuiltinRunner) (addr : Relocatable)
  (m : Memory) : Result (option MaybeRelocatable) :=
  match runners with
  | [] => Ok None
  | r :: rest =>
      if bool_decide (SegmentIndex (builtins.Base r) = SegmentIndex addr)
      then builtins.DeduceMemoryCell r addr m
      else deduce_in rest addr m
  end.

Definition DeduceMemoryCell (vm : VirtualMachine) (addr : Relocatable)
  : Result (option MaybeRelocatable) :=
  if SegmentIndex addr <? 0 then Ok None
  else deduce_in (BuiltinRunners vm) addr (vm_memory vm).

Definition ErrFailedOp0 : Error := "Failed to compute or deduce op0".
Definition ErrFailedOp1 : Error := "Failed to compute or deduce op1".

(** Runs deductions for Op0: first the builtin deductions, then the
    deduction based on dst and op1.  Inserts the deduced operand. *)
Definition ComputeOp0Deductions (op0_addr : Relocatable) (instruction : Instruction)
  (dst op1 : option MaybeRelocatable)
  : VM (MaybeRelocatable * option MaybeRelocatable) :=
  fun vm =>
    match DeduceMemoryCell vm op0_addr with
    | Err e => (Err e, vm)
    | Panic => (Panic, vm)
    | Ok op0 =>
        (let* (op0, deduced_res) :=
           match op0 with
           | Some _ => ret (op0, None)
           | None => lift (DeduceOp0 vm instruction dst op1)
           end in
         match op0 with
         | Some o =>
             let* _ := (fun v => Memory_Insert_ v op0_addr op0) in
             ret (o, deduced_res)
         | None => fail ErrFailedOp0
         end) vm
    end.

(** Runs deductions for Op1; the [res] it may deduce is assigned to the
    local parameter only. *)
Definition ComputeOp1Deductions (op1_addr : Relocatable) (instruction : Instruction)
  (dst op0 res : option MaybeRelocatable) : VM MaybeRelocatable :=
  fun vm =>
    match DeduceMemoryCell vm op1_addr with
    | Err e => (Err e, vm)
    | Panic => (Panic, vm)
    | Ok op1 =>
        (let* op1 :=
           match op1 with
           | Some _ => ret op1
           | None =>
               let* (op1, deducedRes) := lift (DeduceOp1 vm instruction dst op0) in
               ret op1
           end in
         match op1 with
         | Some o =>
             let* _ := (fun v => Memory_Insert_ v op1_addr op1) in
             ret o
         | None => fail ErrFailedOp1
         end) vm
    end.

Definition ComputeOperands (instruction : Instruction) : VM Operands :=
  fun vm =>
    match ComputeDstAddr (RunContext vm) instruction with
    | Panic => (Panic, vm)
    | Err _ => (Err "FailedToComputeDstAddr", vm)
    | Ok dst_addr =>
        let dst := Memory_Get vm dst_addr in
        match ComputeOp0Addr (RunContext vm) instruction with
        | Panic => (Panic, vm)
        | Err e => (Err ("FailedToComputeOp0Addr: " +:+ e), vm)
        | Ok op0_addr =>
            let op0_op := Memory_Get vm op0_addr in
            match ComputeOp1Addr (RunContext vm) instruction op0_op with
            | Panic => (Panic, vm)
            | Err e => (Err ("FailedToComputeOp1Addr: " +:+ e), vm)
            | Ok op1_addr =>
                let op1_op := Memory_Get vm op1_addr in
                (let* (op0, res) :=
                   match op0_op with
                   | Some o => ret (o, None)
                   | None => ComputeOp0Deductions op0_addr instruction dst op1_op
                   end in
                 let* op1 :=
                   match op1_op with
                   | Some o => ret o
                   | None => ComputeOp1Deductions op1_addr instruction dst op0_op res
                   end in
                 let* res :=
                   match res with
                   | Some _ => ret res
                   | None => fun v => (ComputeRes v instruction op0 op1, v)
                   end in
                 let* dst :=
                   match dst with
                   | Some _ => ret dst
                   | None =>
                       fun v =>
                         let deducedDst := DeduceDst v instruction res in
                         match deducedDst with
                         | Some _ =>
                             (let* _ := (fun v' => Memory_Insert_ v' dst_addr deducedDst) in
                              ret deducedDst) v
                         | None => (Ok None, v)
                         end
                   end in
                 match dst with
                 | None => panic
                 | Some d => ret {| Dst := d; Op0 := op0; Op1 := op1; Res := res |}
                 end) vm
            end
        end
    end.

(** *** Register updates *)

(** Updates the value of PC according to the executed instruction. *)
Definition UpdatePc (instruction : Instruction) (operands : Operands) : VM unit :=
  fun vm =>
    let pc := Pc (RunContext vm) in
    match PcUpdate instruction with
    | PcUpdateRegular =>
        (Ok tt, set_Pc vm (NewRelocatable (SegmentIndex pc)
                                          (wrap64 (Offset pc + Size instruction))))
    | PcUpdateJump =>
        match Res operands with
        | None => (Err "Res.UNCONSTRAINED cannot be used with PcUpdate.JUMP", vm)
        | Some r =>
            let '(res, ok) := GetRelocatable r in
            if negb ok
            then (Err "an integer value as Res cannot be used with PcUpdate.JUMP", vm)
            else (Ok tt, set_Pc vm res)
        end
    | PcUpdateJumpRel =>
        match Res operands with
        | None => (Err "Res.UNCONSTRAINED cannot be used with PcUpdate.JUMP_REL", vm)
        | Some r =>
            let '(res, ok) := GetFelt r in
            if negb ok
            then (Err "a relocatable value as Res cannot be used with PcUpdate.JUMP_REL", vm)
            else match AddFelt pc res with
                 | Err e => (Err e, vm)
                 | Panic => (Panic, vm)
                 | Ok new_pc => (Ok tt, set_Pc vm new_pc)
                 end
        end
    | PcUpdateJnz =>
        if IsZero (Dst operands)
        then (Ok tt, set_Pc vm (NewRelocatable (SegmentIndex pc)
                                               (wrap64 (Offset pc + Size instruction))))
        else match AddMaybeRelocatable pc (Op1 operands) with
             | Err e => (Err e, vm)
             | Panic => (Panic, vm)
             | Ok new_pc => (Ok tt, set_Pc vm new_pc)
             end
    end.

(** Updates the value of AP according to the executed instruction. *)
Definition UpdateAp (instruction : Instruction) (operands : Operands) : VM unit :=
  fun vm =>
    let ap := Ap (RunContext vm) in
    match ApUpdate instruction with
    | ApUpdateAdd =>
        match Res operands with
        | None => (Err "Res.UNCONSTRAINED cannot be used with ApUpdate.ADD", vm)
        | Some r =>
            match AddMaybeRelocatable ap r with
            | Err e => (Err e, vm)
            | Panic => (Panic, vm)
            | Ok new_ap => (Ok tt, set_Ap vm new_ap)
            end
        end
    | ApUpdateAdd1 =>
        (Ok tt, set_Ap vm (NewRelocatable (SegmentIndex ap) (wrap64 (Offset ap + 1))))
    | ApUpdateAdd2 =>
        (Ok tt, set_Ap vm (NewRelocatable (SegmentIndex ap) (wrap64 (Offset ap + 2))))
    | ApUpdateRegular => (Ok tt, vm)
    end.

(** Updates the value of FP according to the executed instruction.  In the
    [FpUpdateAPPlus2] case the assignment is to [Fp.Offset]. *)
Definition UpdateFp (instruction : Instruction) (operands : Operands) : VM unit :=
  fun vm =>
    let fp := Fp (RunContext vm) in
    match FpUpdate instruction with
    | FpUpdateAPPlus2 =>
        (Ok tt, set_Fp vm (NewRelocatable (SegmentIndex fp)
                                          (wrap64 (Offset (Ap (RunContext vm)) + 2))))
    | FpUpdateDst =>
        let '(rel, ok) := GetRelocatable (Dst operands) in
        if ok then (Ok tt, set_Fp vm rel)
        else
          let '(felt, _) := GetFelt (Dst operands) in
          match AddFelt fp felt with
          | Err e => (Err e, vm)
          | Panic => (Panic, vm)
          | Ok new_fp => (Ok tt, set_Fp vm new_fp)
          end
    | FpUpdateRegular => (Ok tt, vm)
    end.

(** Updates the values of the RunContext's registers according to the
    executed instruction. *)
Definition UpdateRegisters (instruction : Instruction) (operands : Operands) : VM unit :=
  let* _ := UpdateFp instruction operands in
  let* _ := UpdateAp instruction operands in
  UpdatePc instruction operands.

(** *** Running an instruction *)

Definition snapshot (vm : VirtualMachine) : TraceEntry.t :=
  TraceEntry.Build (Pc (RunContext vm)) (Ap (RunContext vm)) (Fp (RunContext vm)).

Definition append_trace : VM unit :=
  fun vm => (Ok tt, set_Trace vm (Trace vm ++ [snapshot vm])).

Definition RunInstruction (instruction : Instruction) : VM unit :=
  let* operands := ComputeOperands instruction in
  let* _ := (fun vm => (OpcodeAssertions vm instruction operands, vm)) in
  let* _ := append_trace in
  let* _ := UpdateRegisters instruction operands in
  fun vm => (Ok tt, set_CurrentStep vm (wrap64 (CurrentStep vm + 1))).

Section Step.

(** The decoder (decoder.go) is not among the sources; the step engine is
    stated for any decoder. *)
Variable DecodeInstruction : Z -> Result Instruction.

Definition fetch_error (pc : Relocatable) : Error :=
  "Failed to fetch instruction at {SegmentIndex:" +:+ pretty (SegmentIndex pc)
    +:+ " Offset:" +:+ pretty (Offset pc) +:+ "}".

Definition Step : VM unit :=
  fun v =>
    match fst (Get (vm_memory v) (Pc (RunContext v))) with
    | Panic => (Panic, v)
    | Err _ => (Err (fetch_error (Pc (RunContext v))), v)
    | Ok encoded_instruction =>
        let '(encoded_instruction_felt, ok) := GetFelt encoded_instruction in
        if negb ok then (Err "Wrong instruction encoding", v)
        else
          match ToU64 encoded_instruction_felt with
          | Panic => (Panic, v)
          | Err e => (Err e, v)
          | Ok encoded_instruction_uint =>
              match DecodeInstruction encoded_instruction_uint with
              | Panic => (Panic, v)
              | Err e => (Err e, v)
              | Ok instruction => RunInstruction instruction v
              end
          end
    end.

(** [n] calls of [Step], stopping at the first one that does not return
    nil. *)
Fixpoint Steps (n : nat) : VM unit :=
  match n with
  | O => ret tt
  | S n' => let* _ := Step in Steps n'
  end.

End Step.

(** *** Trace relocation *)

Definition ErrNoRelocation : Error := "no relocation found for execution segment".

Definition relocate_entry (relocationTable : list Z) (entry : TraceEntry.t)
  : Result RelocatedTraceEntry.t :=
  match RelocateAddress (TraceEntry.Pc entry) relocationTable with
  | Ok pc =>
      match RelocateAddress (TraceEntry.Ap entry) relocationTable with
      | Ok ap =>
          match RelocateAddress (TraceEntry.Fp entry) relocationTable with
          | Ok fp =>
              Ok (RelocatedTraceEntry.Build (FeltFromUint64 pc) (FeltFromUint64 ap)
                                            (FeltFromUint64 fp))
          | Err e => Err e
          | Panic => Panic
          end
      | Err e => Err e
      | Panic => Panic
      end
  | Err e => Err e
  | Panic => Panic
  end.

(** The loop of [RelocateTrace]: one entry appended per trace entry. *)
Fixpoint relocate_entries (relocationTable : list Z) (entries : list TraceEntry.t)
  : VM unit :=
  match entries with
  | [] => ret tt
  | entry :: rest =>
      fun v =>
        match relocate_entry relocationTable entry with
        | Ok r =>
            relocate_entries relocationTable rest
              (set_RelocatedTrace v (RelocatedTrace v ++ [r]))
        | Err e => (Err e, v)
        | Panic => (Panic, v)
        end
  end.

(** Relocates the VM's trace, turning relocatable registers to numbered
    ones. *)
Definition RelocateTrace (relocationTable : list Z) : VM unit :=
  fun v =>
    if Z.of_nat (length relocationTable) <? 2 then (Err ErrNoRelocation, v)
    else relocate_entries relocationTable (Trace v) v.


Definition Relocate : VM unit :=
  fun v =>
    let v := set_Segments v (ComputeEffectiveSizes (Segments v)) in
    if bool_decide (length (Trace v) = 0%nat) then (Ok tt, v)
    else
      let '(relocationTable, ok) := RelocateSegments (Segments v) in
      if negb ok
      then (Err "ComputeEffectiveSizes called but RelocateSegments still returned error", v)
      else
        match RelocateMemory (Segments v) relocationTable with
        | Err e => (Err e, v)
        | Panic => (Panic, v)
        | Ok relocatedMemory =>
            match RelocateTrace relocationTable v with
            | (Panic, v') => (Panic, v')
            | (_, v') => (Ok tt, set_RelocatedMemory v' (Some relocatedMemory))
            end
        end.

(** *** What a call leaves in place *)

(** The machine [v] with the memory [m]. *)
Definition with_memory (v : VirtualMachine) (m : Memory) : VirtualMachine :=
  set_Segments v (set_Memory (Segments v) m).

(** [v'] differs from [v] in its memory at most, and there only by cells
    that were free in [v]. *)
Definition extends (v v' : VirtualMachine) : Prop :=
  RunContext v' = RunContext v /\ CurrentStep v' = CurrentStep v /\
  BuiltinRunners v' = BuiltinRunners v /\ Trace v' = Trace v /\
  RelocatedTrace v' = RelocatedTrace v /\ RelocatedMemory v' = RelocatedMemory v /\
  SegmentSizes (Segments v') = SegmentSizes (Segments v) /\
  num_segments (vm_memory v') = num_segments (vm_memory v) /\
  forall a w, data (vm_memory v) !! a = Some w -> data (vm_memory v') !! a = Some w.

(** [v'] differs from [v] in its registers at most. *)
Definition same_but_registers (v v' : VirtualMachine) : Prop :=
  v' = set_RunContext v (RunContext v').

(** The address lies in an allocated segment: the two guards of [Insert]
    let it through. *)
Definition in_bounds (v : VirtualMachine) (a : Relocatable) : Prop :=
  0 <= SegmentIndex a /\ SegmentIndex a < int_of_uint (num_segments (vm_memory v)).

End vm.

(** ** Sample machines *)

Module samples.
Import lambdaworks memory segments vm.

(** A memory of [n] segments holding [cells], without validation rules. *)
Definition memory_of (n : Z) (cells : list (Relocatable * MaybeRelocatable)) : Memory :=
  {| data := list_to_map cells; num_segments := n;
     validation_rules := ∅; validated_addresses := NewAddressSet |}.

Definition machine (pc ap fp : Relocatable) (m : Memory)
  (runners : list builtins.BuiltinRunner) : VirtualMachine :=
  {| RunContext := {| Pc := pc; Ap := ap; Fp := fp |};
     CurrentStep := 0;
     Segments := {| SegmentSizes := None; Memory_ := m |};
     BuiltinRunners := runners;
     Trace := [];
     RelocatedTrace := [];
     RelocatedMemory := None |}.

(** [call rel imm]: dst is [[ap]], op0 is [[ap + 1]], op1 the immediate. *)
Definition call_rel : Instruction :=
  {| Off0 := 0; Off1 := 1; Off2 := 1; DstReg := AP; Op0Reg := AP;
     Op1Addr := Op1SrcImm; ResLogic := ResOp1; PcUpdate := PcUpdateJumpRel;
     ApUpdate := ApUpdateAdd2; FpUpdate := FpUpdateAPPlus2; Opcode := Call |}.

(** The same call with the two offsets exchanged: dst is [[ap + 1]], op0 is
    [[ap]]. *)
Definition call_swapped : Instruction :=
  {| Off0 := 1; Off1 := 0; Off2 := 1; DstReg := AP; Op0Reg := AP;
     Op1Addr := Op1SrcImm; ResLogic := ResOp1; PcUpdate := PcUpdateJumpRel;
     ApUpdate := ApUpdateAdd2; FpUpdate := FpUpdateAPPlus2; Opcode := Call |}.

(** [ret]: dst is [[fp - 2]], op1 is [[fp - 1]], jump to res. *)
Definition ret_ : Instruction :=
  {| Off0 := -2; Off1 := -1; Off2 := -1; DstReg := FP; Op0Reg := FP;
     Op1Addr := Op1SrcFP; ResLogic := ResOp1; PcUpdate := PcUpdateJump;
     ApUpdate := ApUpdateRegular; FpUpdate := FpUpdateDst; Opcode := Ret |}.

(** [[ap] = [fp - 2] + [fp - 1]; ap++] and its product variant. *)
Definition assert_add : Instruction :=
  {| Off0 := 0; Off1 := -2; Off2 := -1; DstReg := AP; Op0Reg := FP;
     Op1Addr := Op1SrcFP; ResLogic := ResAdd; PcUpdate := PcUpdateRegular;
     ApUpdate := ApUpdateAdd1; FpUpdate := FpUpdateRegular; Opcode := AssertEq |}.

Definition assert_mul : Instruction :=
  {| Off0 := 0; Off1 := -2; Off2 := -1; DstReg := AP; Op0Reg := FP;
     Op1Addr := Op1SrcFP; ResLogic := ResMul; PcUpdate := PcUpdateRegular;
     ApUpdate := ApUpdateAdd1; FpUpdate := FpUpdateRegular; Opcode := AssertEq |}.

(** [[fp - 1] = [ap]] with op0 and op1 both read at [[ap]]. *)
Definition assert_same_cell : Instruction :=
  {| Off0 := -1; Off1 := 0; Off2 := 0; DstReg := FP; Op0Reg := AP;
     Op1Addr := Op1SrcAP; ResLogic := ResOp1; PcUpdate := PcUpdateRegular;
     ApUpdate := ApUpdateRegular; FpUpdate := FpUpdateRegular; Opcode := AssertEq |}.

Definition word_call_rel : Z := 0x1104800180018000.
Definition word_ret : Z := 0x208b7fff7fff7ffe.

(** A decoder that knows the words of [call rel] and [ret]. *)
Definition decode_sample (w : Z) : Result Instruction :=
  if bool_decide (w = word_call_rel) then Ok call_rel
  else if bool_decide (w = word_ret) then Ok ret_
  else Err "InvalidEncoding".

(** Two segments, [pc = (0,0)], [ap = fp = (1,2)], the program
    [call rel 4]. *)
Definition machine_call : VirtualMachine :=
  machine (NewRelocatable 0 0) (NewRelocatable 1 2) (NewRelocatable 1 2)
    (memory_of 2 [(NewRelocatable 0 0, MRFelt word_call_rel);
                  (NewRelocatable 0 1, MRFelt 4)]) [].

(** The program [ret] over a frame whose return fp is [(2,0)] and whose
    return pc is the felt 7. *)
Definition machine_ret : VirtualMachine :=
  machine (NewRelocatable 0 0) (NewRelocatable 1 2) (NewRelocatable 1 2)
    (memory_of 3 [(NewRelocatable 0 0, MRFelt word_ret);
                  (NewRelocatable 1 0, MRRel (NewRelocatable 2 0));
                  (NewRelocatable 1 1, MRFelt 7)]) [].

(** [[fp - 2] = 2] and [[fp - 1] = 3]; [[ap]] is free. *)
Definition machine_assert : VirtualMachine :=
  machine (NewRelocatable 0 0) (NewRelocatable 1 2) (NewRelocatable 1 2)
    (memory_of 2 [(NewRelocatable 1 0, MRFelt 2);
                  (NewRelocatable 1 1, MRFelt 3)]) [].

(** [fp] in segment 2, [ap] in segment 1 (the registers after the last
    [ret] of a run: the initial frame stores a return fp in a segment of its
    own). *)
Definition machine_split : VirtualMachine :=
  machine (NewRelocatable 0 0) (NewRelocatable 1 4) (NewRelocatable 2 0)
    (memory_of 3 []) [].

(** A builtin on segment 2 that deduces the felt 1 for a free cell and has
    no deduction for a cell that is already written. *)
Definition fill_builtin : builtins.BuiltinRunner :=
  {| builtins.Base := NewRelocatable 2 0;
     builtins.Name := "fill";
     builtins.DeduceMemoryCell := fun addr m =>
       match data m !! addr with
       | Some _ => Ok None
       | None => Ok (Some (MRFelt 1))
       end |}.

(** [ap] points into the builtin's segment; [[fp - 1] = 5]. *)
Definition machine_builtin : VirtualMachine :=
  machine (NewRelocatable 0 0) (NewRelocatable 2 0) (NewRelocatable 1 2)
    (memory_of 3 [(NewRelocatable 1 1, MRFelt 5)]) [fill_builtin].

(** A validation rule in the manner of a range check: the cell must hold a
    felt, and the address is then validated. *)
Definition felt_rule : ValidationRule :=
  fun mv addr =>
    match view_data mv !! addr with
    | Some (MRFelt _) => Ok [addr]
    | _ => Err "expected a felt"
    end.

(** Two segments, [(1,0) = 2], and [felt_rule] on segment 1. *)
Definition memory_ruled : Memory :=
  AddValidationRule (memory_of 2 [(NewRelocatable 1 0, MRFelt 2)]) 1 felt_rule.

(** [jmp rel [fp - 1] if [ap] != 0]: a NOP that reads dst at [[ap]]. *)
Definition jnz_ : Instruction :=
  {| Off0 := 0; Off1 := -2; Off2 := -1; DstReg := AP; Op0Reg := FP;
     Op1Addr := Op1SrcFP; ResLogic := ResUnconstrained; PcUpdate := PcUpdateJnz;
     ApUpdate := ApUpdateRegular; FpUpdate := FpUpdateRegular; Opcode := NOp |}.

(** An ASSERT_EQ whose res is unconstrained; all its operands are read. *)
Definition assert_free : Instruction :=
  {| Off0 := -2; Off1 := -2; Off2 := -1; DstReg := FP; Op0Reg := FP;
     Op1Addr := Op1SrcFP; ResLogic := ResUnconstrained; PcUpdate := PcUpdateRegular;
     ApUpdate := ApUpdateRegular; FpUpdate := FpUpdateRegular; Opcode := AssertEq |}.

End samples.

(** * Properties *)

(** ** The write-once memory *)

Module memory_facts.
Import lambdaworks memory samples.

Lemma set_data_id (m : Memory) : set_data m (data m) = m.
Proof. by destruct m. Qed.

Lemma validateAddress_fields (m m' : Memory) (addr : Relocatable) (r : Result unit) :
  validateAddress m addr = (r, m') ->
  data m' = data m /\ num_segments m' = num_segments m /\
  validation_rules m' = validation_rules m.
Proof.
  unfold validateAddress.
  destruct (_ || _); [by intros [= <- <-]|].
  destruct (validation_rules m !! _) as [rule|]; [|by intros [= <- <-]].
  destruct (rule _ _); by intros [= <- <-].
Qed.

(** A second validation of the same address on the resulting memory
    succeeds again: either the address is now in the validated set, or the
    rule sees the same cells. *)
Lemma validateAddress_again (m m1 : Memory) (addr : Relocatable) :
  validateAddress m addr = (Ok tt, m1) ->
  exists m2, validateAddress m1 addr = (Ok tt, m2) /\ data m2 = data m1.
Proof.
  unfold validateAddress.
  destruct (_ || _) eqn:Hguard.
  { intros [= <-]. rewrite Hguard. by eexists. }
  destruct (validation_rules m !! _) as [rule|] eqn:Hrule.
  2:{ intros [= <-]. rewrite Hguard, Hrule. by eexists. }
  destruct (rule (view m) addr) as [l| |] eqn:Hr; [|done..].
  intros [= <-]. cbn. rewrite Hrule.
  change (view (set_validated_addresses m _)) with (view m).
  rewrite Hr. clear Hguard. destruct (_ || _); eexists; split; reflexivity.
Qed.

Lemma Insert_inv (m m' : Memory) (addr : Relocatable) (v : MaybeRelocatable)
  (r : Result unit) :
  Insert m addr (Some v) = (r, m') ->
  num_segments m' = num_segments m /\
  validation_rules m' = validation_rules m /\
  ((data m' = data m /\ r <> Ok tt /\ m' = m) \/
   (0 <= SegmentIndex addr /\ SegmentIndex addr < int_of_uint (num_segments m) /\
    (data m !! addr = None \/ data m !! addr = Some v) /\
    data m' = <[addr := v]> (data m))).
Proof.
  unfold Insert.
  destruct (Z.ltb_spec (SegmentIndex addr) 0) as [Hneg|Hneg].
  { intros [= <- <-]. repeat split; left; done. }
  destruct (SegmentIndex addr >=? _) eqn:Hge.
  { intros [= <- <-]. repeat split; left; done. }
  assert (SegmentIndex addr < int_of_uint (num_segments m)) as Hlt.
  { rewrite Z.geb_leb in Hge. apply Z.leb_gt in Hge. lia. }
  destruct (data m !! addr) as [prev|] eqn:Hprev.
  - case_bool_decide as Heq.
    + subst prev. intros Hv. apply validateAddress_fields in Hv as (Hd & -> & ->).
      repeat split. right. rewrite Hd. auto.
    + intros [= <- <-]. repeat split; left; done.
  - intros Hv. apply validateAddress_fields in Hv as (Hd & -> & ->).
    repeat split. right. rewrite Hd. auto.
Qed.

(** Write-once: whatever [Insert] returns, a stored cell keeps its value. *)
Lemma Insert_mono (m m' : Memory) (addr b : Relocatable) (v w : MaybeRelocatable)
  (r : Result unit) :
  Insert m addr (Some v) = (r, m') -> data m !! b = Some w -> data m' !! b = Some w.
Proof.
  intros H Hb. apply Insert_inv in H as (_ & _ & [(-> & _)|(_ & _ & Ha & ->)]);
    [done|].
  destruct (decide (addr = b)) as [->|Hne].
  - rewrite lookup_insert_eq. destruct Ha; congruence.
  - by rewrite lookup_insert_ne.
Qed.

Lemma Insert_other (m m' : Memory) (addr b : Relocatable) (v : MaybeRelocatable)
  (r : Result unit) :
  Insert m addr (Some v) = (r, m') -> addr <> b -> data m' !! b = data m !! b.
Proof.
  intros H Hb. apply Insert_inv in H as (_ & _ & [(-> & _)|(_ & _ & _ & ->)]);
    [done|]. by rewrite lookup_insert_ne.
Qed.

(** An insert into an allocated segment at a free cell stores the value,
    also when the validation that follows fails. *)
Lemma Insert_stores (m m' : Memory) (addr : Relocatable) (v : MaybeRelocatable)
  (r : Result unit) :
  0 <= SegmentIndex addr -> SegmentIndex addr < int_of_uint (num_segments m) ->
  data m !! addr = None ->
  Insert m addr (Some v) = (r, m') -> data m' !! addr = Some v.
Proof.
  intros H0 H1 Hnone. unfold Insert.
  destruct (Z.ltb_spec (SegmentIndex addr) 0); [lia|].
  destruct (SegmentIndex addr >=? _) eqn:Hge.
  { rewrite Z.geb_leb in Hge. apply Z.leb_le in Hge. lia. }
  rewrite Hnone. intros Hv. apply validateAddress_fields in Hv as (-> & _).
  cbn. by rewrite lookup_insert_eq.
Qed.

Lemma Get_Some (m : Memory) (addr : Relocatable) (v : MaybeRelocatable) :
  fst (Get m addr) = Ok v <-> 0 <= SegmentIndex addr /\ data m !! addr = Some v.
Proof.
  unfold Get. destruct (Z.ltb_spec (SegmentIndex addr) 0).
  - cbn. split; [done|lia].
  - destruct (data m !! addr); cbn; split.
    + by intros [= ->].
    + by intros [_ [= ->]].
    + done.
    + by intros [_ ?].
Qed.

Lemma IsEqual_spec (a b : MaybeRelocatable) : IsEqual a b = true <-> a = b.
Proof.
  destruct a as [x|[s o]], b as [y|[s' o']]; cbn; try (split; done).
  - rewrite bool_decide_eq_true. split; congruence.
  - unfold Relocatable_IsEqual; cbn.
    rewrite andb_true_iff, !bool_decide_eq_true. split; [intros [-> ->]|intros [= -> ->]]; done.
Qed.

Lemma Relocatable_IsEqual_spec (a b : Relocatable) :
  Relocatable_IsEqual a b = true <-> a = b.
Proof.
  destruct a, b. unfold Relocatable_IsEqual; cbn.
  rewrite andb_true_iff, !bool_decide_eq_true. split; [intros [-> ->]|intros [= -> ->]]; done.
Qed.

(** C1. Memory insertion is write-once.  After a successful
    [Insert(addr, v1)] the cell holds [v1]; a second insert of the same value
    succeeds and leaves the mapping as it is; a second insert of a different
    value fails with the inconsistent-memory error and leaves the memory
    untouched.  [Insert] fails with the negative-segment error when the
    segment index is negative and with the unallocated-segment error when it
    is at least [num_segments], the memory being unchanged in both cases. *)
Theorem Insert_write_once :
  (forall (m m1 : Memory) (addr : Relocatable) (v1 : MaybeRelocatable),
      Insert m addr (Some v1) = (Ok tt, m1) ->
      data m1 !! addr = Some v1 /\
      (exists m2, Insert m1 addr (Some v1) = (Ok tt, m2) /\ data m2 = data m1) /\
      (forall v2, v2 <> v1 -> Insert m1 addr (Some v2) = (Err ErrInconsistent, m1))) /\
  (forall (m : Memory) (addr : Relocatable) (val : option MaybeRelocatable),
      SegmentIndex addr < 0 -> Insert m addr val = (Err ErrNegativeSegment, m)) /\
  (forall (m : Memory) (addr : Relocatable) (val : option MaybeRelocatable),
      0 <= num_segments m -> SegmentIndex addr < 2 ^ 63 ->
      num_segments m <= SegmentIndex addr ->
      Insert m addr val = (Err ErrUnallocatedSegment, m)).
Proof.
  split; [|split].
  - intros m m1 addr v1 H.
    pose proof (Insert_inv _ _ _ _ _ H) as (Hn & Hr & [(_ & Hne & _)|(H0 & H1 & _ & Hd)]);
      [done|].
    assert (data m1 !! addr = Some v1) as Hcell by (rewrite Hd; apply lookup_insert_eq).
    assert (validateAddress (set_data m (<[addr := v1]> (data m))) addr = (Ok tt, m1)) as Hv.
    { revert H. unfold Insert.
      destruct (SegmentIndex addr <? 0); [done|].
      destruct (SegmentIndex addr >=? _); [done|].
      destruct (data m !! addr); [|done]. by case_bool_decide. }
    split; [done|]. split.
    + apply validateAddress_again in Hv as (m2 & Hv2 & Hd2).
      exists m2. split; [|done]. unfold Insert.
      destruct (Z.ltb_spec (SegmentIndex addr) 0); [lia|].
      rewrite Hn. destruct (SegmentIndex addr >=? _) eqn:Hge.
      { rewrite Z.geb_leb in Hge. apply Z.leb_le in Hge. lia. }
      rewrite Hcell, bool_decide_eq_true_2 by done.
      by rewrite (insert_id _ _ _ Hcell), set_data_id.
    + intros v2 Hne. unfold Insert.
      destruct (Z.ltb_spec (SegmentIndex addr) 0); [lia|].
      rewrite Hn. destruct (SegmentIndex addr >=? _) eqn:Hge.
      { rewrite Z.geb_leb in Hge. apply Z.leb_le in Hge. lia. }
      rewrite Hcell, bool_decide_eq_false_2; [done|congruence].
  - intros m addr val Hneg. unfold Insert.
    destruct (Z.ltb_spec (SegmentIndex addr) 0); [done|lia].
  - intros m addr val Hn Hs Hge. unfold Insert.
    destruct (Z.ltb_spec (SegmentIndex addr) 0); [lia|].
    assert (int_of_uint (num_segments m) = num_segments m) as ->.
    { unfold int_of_uint. destruct (Z.ltb_spec (num_segments m) (2 ^ 63)); lia. }
    destruct (SegmentIndex addr >=? num_segments m) eqn:E; [done|].
    rewrite Z.geb_leb in E. apply Z.leb_gt in E. lia.
Qed.

(** C10. [Get] returns the negative-segment error for every address with a
    negative segment index, whatever the memory holds; for the other
    addresses it returns the stored value when there is one and the
    not-found error otherwise; it never changes the memory (cells, rules,
    validated addresses). *)
Theorem Get_spec (m : Memory) (addr : Relocatable) :
  (SegmentIndex addr < 0 -> fst (Get m addr) = Err ErrNegativeSegment) /\
  (0 <= SegmentIndex addr ->
   forall v, data m !! addr = Some v -> fst (Get m addr) = Ok v) /\
  (0 <= SegmentIndex addr ->
   data m !! addr = None -> fst (Get m addr) = Err ErrNotFound) /\
  snd (Get m addr) = m.
Proof.
  unfold Get. destruct (Z.ltb_spec (SegmentIndex addr) 0).
  - split; [done|]. split; [lia|]. split; [lia|done].
  - destruct (data m !! addr) eqn:E; cbn.
    + split; [lia|]. split; [by intros _ v [= ->]|]. split; done.
    + split; [lia|]. split; [done|]. split; done.
Qed.

Lemma Insert_write_once_witness :
  let m := memory_of 2 [(NewRelocatable 0 0, MRFelt 5)] in
  let addr := NewRelocatable 1 3 in
  let m1 := snd (Insert m addr (Some (MRFelt 7))) in
  data m1 !! addr = Some (MRFelt 7) /\
  (exists m2, Insert m1 addr (Some (MRFelt 7)) = (Ok tt, m2) /\ data m2 = data m1) /\
  Insert m1 addr (Some (MRFelt 8)) = (Err ErrInconsistent, m1) /\
  Insert m (NewRelocatable (-1) 0) (Some (MRFelt 7)) = (Err ErrNegativeSegment, m) /\
  Insert m (NewRelocatable 2 0) (Some (MRFelt 7)) = (Err ErrUnallocatedSegment, m).
Proof.
  intros m addr m1.
  destruct (proj1 Insert_write_once m m1 addr (MRFelt 7)) as (H1 & H2 & H3).
  { vm_compute. reflexivity. }
  split; [exact H1|]. split; [exact H2|]. split.
  { apply H3. discriminate. }
  split.
  - apply (proj1 (proj2 Insert_write_once)). vm_compute. reflexivity.
  - apply (proj2 (proj2 Insert_write_once)); vm_compute; try reflexivity; discriminate.
Defined.

Lemma Get_spec_witness :
  let m := memory_of 2 [(NewRelocatable 0 0, MRFelt 5)] in
  fst (Get m (NewRelocatable (-1) 0)) = Err ErrNegativeSegment /\
  fst (Get m (NewRelocatable 0 0)) = Ok (MRFelt 5) /\
  fst (Get m (NewRelocatable 0 1)) = Err ErrNotFound /\
  snd (Get m (NewRelocatable 0 0)) = m.
Proof.
  intros m. split; [|split; [|split]].
  - apply (proj1 (Get_spec m (NewRelocatable (-1) 0))). vm_compute. reflexivity.
  - apply (proj1 (proj2 (Get_spec m (NewRelocatable 0 0)))).
    + vm_compute. discriminate.
    + vm_compute. reflexivity.
  - apply (proj1 (proj2 (proj2 (Get_spec m (NewRelocatable 0 1))))).
    + vm_compute. discriminate.
    + vm_compute. reflexivity.
  - apply (proj2 (proj2 (proj2 (Get_spec m (NewRelocatable 0 0))))).
Defined.

End memory_facts.

(** ** The step engine *)

Module vm_facts.
Import lambdaworks memory segments vm samples memory_facts.

Lemma extends_refl v : extends v v.
Proof. repeat split; auto. Qed.

(** The call returned the machine it was given. *)
Ltac unchanged := intros [= <- <-]; apply extends_refl.

Lemma extends_trans v1 v2 v3 : extends v1 v2 -> extends v2 v3 -> extends v1 v3.
Proof.
  intros (A1 & A2 & A3 & A4 & A5 & A6 & A7 & A8 & A9) (B1 & B2 & B3 & B4 & B5 & B6 & B7 & B8 & B9).
  repeat split; try congruence. auto.
Qed.

Lemma bind_Ok {A B} (c : VM A) (k : A -> VM B) v b v' :
  bind c k v = (Ok b, v') -> exists a v1, c v = (Ok a, v1) /\ k a v1 = (Ok b, v').
Proof.
  unfold bind. destruct (c v) as [[a| |] v1]; [eauto|done..].
Qed.


Lemma Memory_Insert_inv v a x r v' :
  Memory_Insert_ v a (Some x) = (r, v') ->
  exists r0 m', Insert (vm_memory v) a (Some x) = (r0, m') /\
                v' = set_Segments v (set_Memory (Segments v) m') /\
                r <> Err ErrInconsistent.
Proof.
  unfold Memory_Insert_. destruct (Insert _ _ _) as [[[]|e|] m'] eqn:E;
    intros [= <- <-]; eauto 10.
Qed.

Lemma Memory_Insert_extends v a x r v' :
  Memory_Insert_ v a (Some x) = (r, v') -> extends v v'.
Proof.
  intros H. apply Memory_Insert_inv in H as (r0 & m' & Hi & -> & _).
  pose proof (Insert_inv _ _ _ _ _ Hi) as (Hn & _ & _).
  repeat split; try done. intros b w Hb. cbn. eapply Insert_mono; eauto.
Qed.

Lemma ComputeOp0Deductions_Ok oa instr dst op1 v o res v' :
  ComputeOp0Deductions oa instr dst op1 v = (Ok (o, res), v') ->
  (exists r m', Insert (vm_memory v) oa (Some o) = (r, m') /\ v' = with_memory v m') /\
  ((DeduceMemoryCell v oa = Ok (Some o) /\ res = None) \/
   (DeduceMemoryCell v oa = Ok None /\ DeduceOp0 v instr dst op1 = Ok (Some o, res))).
Proof.
  unfold ComputeOp0Deductions.
  destruct (DeduceMemoryCell v oa) as [[c|]| |] eqn:Hd; try done.
  - unfold bind, ret. cbn.
    destruct (Memory_Insert_ v oa (Some c)) as [[[]|e|] v1] eqn:Hi; try done.
    intros [= <- <- <-]. apply Memory_Insert_inv in Hi as (r0 & m' & Hi & -> & _).
    split; [eauto|]. by left.
  - unfold bind, lift, ret, fail.
    destruct (DeduceOp0 v instr dst op1) as [[[c|] dr]| |] eqn:Hd0; try done.
    destruct (Memory_Insert_ v oa (Some c)) as [[[]|e|] v1] eqn:Hi; try done.
    intros [= <- <- <-]. apply Memory_Insert_inv in Hi as (r0 & m' & Hi & -> & _).
    split; [eauto|]. by right.
Qed.

Lemma ComputeOp0Deductions_extends oa instr dst op1 v r v' :
  ComputeOp0Deductions oa instr dst op1 v = (r, v') -> extends v v'.
Proof.
  unfold ComputeOp0Deductions.
  destruct (DeduceMemoryCell v oa) as [[c|]| |] eqn:Hd;
    try (unchanged).
  - unfold bind, ret.
    destruct (Memory_Insert_ v oa (Some c)) as [[[]|e|] v1] eqn:Hi;
      intros [= <- <-]; eapply Memory_Insert_extends; eauto.
  - unfold bind, lift, ret, fail.
    destruct (DeduceOp0 v instr dst op1) as [[[c|] dr]| |] eqn:Hd0;
      try (unchanged).
    destruct (Memory_Insert_ v oa (Some c)) as [[[]|e|] v1] eqn:Hi;
      intros [= <- <-]; eapply Memory_Insert_extends; eauto.
Qed.

Lemma ComputeOp1Deductions_Ok pa instr dst op0 res v o v' :
  ComputeOp1Deductions pa instr dst op0 res v = (Ok o, v') ->
  (exists r m', Insert (vm_memory v) pa (Some o) = (r, m') /\ v' = with_memory v m') /\
  (DeduceMemoryCell v pa = Ok (Some o) \/
   (DeduceMemoryCell v pa = Ok None /\
    exists res', DeduceOp1 v instr dst op0 = Ok (Some o, res'))).
Proof.
  unfold ComputeOp1Deductions.
  destruct (DeduceMemoryCell v pa) as [[c|]| |] eqn:Hd; try done.
  - unfold bind, ret. cbn.
    destruct (Memory_Insert_ v pa (Some c)) as [[[]|e|] v1] eqn:Hi; try done.
    intros [= <- <-]. apply Memory_Insert_inv in Hi as (r0 & m' & Hi & -> & _).
    split; [eauto|]. by left.
  - unfold bind, lift, ret, fail.
    destruct (DeduceOp1 v instr dst op0) as [[[c|] dr]| |] eqn:Hd0; try done.
    destruct (Memory_Insert_ v pa (Some c)) as [[[]|e|] v1] eqn:Hi; try done.
    intros [= <- <-]. apply Memory_Insert_inv in Hi as (r0 & m' & Hi & -> & _).
    split; [eauto|]. right. eauto.
Qed.

Lemma ComputeOp1Deductions_extends pa instr dst op0 res v r v' :
  ComputeOp1Deductions pa instr dst op0 res v = (r, v') -> extends v v'.
Proof.
  unfold ComputeOp1Deductions.
  destruct (DeduceMemoryCell v pa) as [[c|]| |] eqn:Hd;
    try (unchanged).
  - unfold bind, ret.
    destruct (Memory_Insert_ v pa (Some c)) as [[[]|e|] v1] eqn:Hi;
      intros [= <- <-]; eapply Memory_Insert_extends; eauto.
  - unfold bind, lift, ret, fail.
    destruct (DeduceOp1 v instr dst op0) as [[[c|] dr]| |] eqn:Hd0;
      try (unchanged).
    destruct (Memory_Insert_ v pa (Some c)) as [[[]|e|] v1] eqn:Hi;
      intros [= <- <-]; eapply Memory_Insert_extends; eauto.
Qed.

Lemma ComputeOperands_Ok instr vm ops vm' :
  ComputeOperands instr vm = (Ok ops, vm') ->
  exists da oa pa res0 v1 v2,
    ComputeDstAddr (RunContext vm) instr = Ok da /\
    ComputeOp0Addr (RunContext vm) instr = Ok oa /\
    ComputeOp1Addr (RunContext vm) instr (Memory_Get vm oa) = Ok pa /\
    match Memory_Get vm oa with
    | Some o => Op0 ops = o /\ res0 = None /\ v1 = vm
    | None =>
        ComputeOp0Deductions oa instr (Memory_Get vm da) (Memory_Get vm pa) vm
        = (Ok (Op0 ops, res0), v1)
    end /\
    match Memory_Get vm pa with
    | Some o => Op1 ops = o /\ v2 = v1
    | None =>
        ComputeOp1Deductions pa instr (Memory_Get vm da) (Memory_Get vm oa) res0 v1
        = (Ok (Op1 ops), v2)
    end /\
    match res0 with
    | Some _ => Res ops = res0
    | None => ComputeRes v2 instr (Op0 ops) (Op1 ops) = Ok (Res ops)
    end /\
    match Memory_Get vm da with
    | Some d => Dst ops = d /\ vm' = v2
    | None =>
        DeduceDst v2 instr (Res ops) = Some (Dst ops) /\
        exists r m', Insert (vm_memory v2) da (Some (Dst ops)) = (r, m') /\
                     vm' = with_memory v2 m'
    end.
Proof.
  unfold ComputeOperands.
  destruct (ComputeDstAddr _ _) as [da| |] eqn:Hda; [|done..].
  destruct (ComputeOp0Addr _ _) as [oa| |] eqn:Hoa; [|done..].
  destruct (ComputeOp1Addr _ _ _) as [pa| |] eqn:Hpa; [|done..].
  intros H.
  apply bind_Ok in H as ([op0 res0] & v1 & H0 & H).
  apply bind_Ok in H as (op1 & v2 & H1 & H).
  apply bind_Ok in H as (res & v3 & H2 & H).
  apply bind_Ok in H as (dst & v4 & H3 & H).
  exists da, oa, pa, res0, v1, v2.
  do 3 (split; [done|]).
  assert (v3 = v2 /\ match res0 with
                     | Some _ => res = res0
                     | None => ComputeRes v2 instr op0 op1 = Ok res
                     end) as [-> Hres].
  { unfold ret in H2. destruct res0; injection H2 as H2 <-; [by subst res|done]. }
  unfold ret, panic in *.
  destruct dst as [d|]; [|done]. injection H as <- <-. cbn.
  split.
  { destruct (Memory_Get vm oa); [by injection H0 as <- <- <-|done]. }
  split.
  { destruct (Memory_Get vm pa); [by injection H1 as <- <-|done]. }
  split; [done|].
  destruct (Memory_Get vm da) as [d0|].
  { by injection H3 as <- <-. }
  destruct (DeduceDst v2 instr res) as [dd|] eqn:Hdd; [|done].
  apply bind_Ok in H3 as ([] & v5 & Hi & [= <- <-]).
  apply Memory_Insert_inv in Hi as (r0 & m' & Hi & -> & _).
  split; [done|]. eauto.
Qed.

Lemma with_memory_extends v m r a x :
  Insert (vm_memory v) a (Some x) = (r, m) -> extends v (with_memory v m).
Proof.
  intros Hi. pose proof (Insert_inv _ _ _ _ _ Hi) as (Hn & _ & _).
  repeat split; try done. intros b w Hb. cbn. eapply Insert_mono; eauto.
Qed.

Lemma bind_extends {A B} (c : VM A) (k : A -> VM B) v r v' :
  bind c k v = (r, v') ->
  (forall r1 v1, c v = (r1, v1) -> extends v v1) ->
  (forall a v1 r2 v2, c v = (Ok a, v1) -> k a v1 = (r2, v2) -> extends v1 v2) ->
  extends v v'.
Proof.
  unfold bind. intros H Hc Hk.
  destruct (c v) as [[a| |] v1] eqn:E.
  - eapply extends_trans; [by eapply Hc|]. by eapply Hk.
  - injection H as <- <-. by eapply Hc.
  - injection H as <- <-. by eapply Hc.
Qed.

Lemma ComputeOperands_extends instr vm r vm' :
  ComputeOperands instr vm = (r, vm') -> extends vm vm'.
Proof.
  unfold ComputeOperands.
  destruct (ComputeDstAddr _ _) as [da| |];
    [|unchanged..].
  destruct (ComputeOp0Addr _ _) as [oa| |];
    [|unchanged..].
  destruct (ComputeOp1Addr _ _ _) as [pa| |];
    [|unchanged..].
  intros H. eapply bind_extends; [exact H| |]; clear H.
  { intros r1 v1. destruct (Memory_Get vm oa).
    - unchanged.
    - apply ComputeOp0Deductions_extends. }
  intros [op0 res0] v1 r2 v2 _ H. eapply bind_extends; [exact H| |]; clear H.
  { intros r1 v1'. destruct (Memory_Get vm pa).
    - unchanged.
    - apply ComputeOp1Deductions_extends. }
  intros op1 v3 r3 v4 _ H. eapply bind_extends; [exact H| |]; clear H.
  { intros r1 v1'. destruct res0; unchanged. }
  intros res v5 r5 v6 _ H. eapply bind_extends; [exact H| |]; clear H.
  { intros r1 v1'. destruct (Memory_Get vm da).
    - unchanged.
    - destruct (DeduceDst v5 instr res) as [dd|].
      + intros H. eapply bind_extends; [exact H| |]; clear H.
        * intros ? ?. apply Memory_Insert_extends.
        * intros ? ? ? ? _ [= <- <-]. apply extends_refl.
      + unchanged. }
  intros [d|] ? ? ? _ [= <- <-]; apply extends_refl.
Qed.

Lemma Memory_Get_Some v a x :
  Memory_Get v a = Some x <-> 0 <= SegmentIndex a /\ data (vm_memory v) !! a = Some x.
Proof.
  unfold Memory_Get. rewrite <- Get_Some.
  destruct (fst (Get (vm_memory v) a)); split; congruence.
Qed.

Lemma Memory_Get_None v a :
  Memory_Get v a = None -> 0 <= SegmentIndex a -> data (vm_memory v) !! a = None.
Proof.
  intros H H0. destruct (data (vm_memory v) !! a) as [x|] eqn:E; [|done].
  assert (Memory_Get v a = Some x) by (by apply Memory_Get_Some). congruence.
Qed.

Lemma extends_Get v v' a x : extends v v' -> Memory_Get v a = Some x -> Memory_Get v' a = Some x.
Proof.
  intros E. rewrite !Memory_Get_Some. intros [? ?]. split; [done|]. by apply E.
Qed.

(** The cells of the operands after a successful [ComputeOperands]. *)
Lemma ComputeOperands_cells instr vm ops vm' da oa pa :
  ComputeOperands instr vm = (Ok ops, vm') ->
  ComputeDstAddr (RunContext vm) instr = Ok da ->
  ComputeOp0Addr (RunContext vm) instr = Ok oa ->
  ComputeOp1Addr (RunContext vm) instr (Memory_Get vm oa) = Ok pa ->
  (in_bounds vm oa -> Memory_Get vm' oa = Some (Op0 ops)) /\
  (in_bounds vm da -> da <> oa -> da <> pa -> Memory_Get vm' da = Some (Dst ops)).
Proof.
  intros H Hda Hoa Hpa.
  pose proof (ComputeOperands_extends _ _ _ _ H) as E.
  apply ComputeOperands_Ok in H
    as (da' & oa' & pa' & res0 & v1 & v2 & Hda' & Hoa' & Hpa' & H0 & H1 & H2 & H3).
  rewrite Hda in Hda'. injection Hda' as <-.
  rewrite Hoa in Hoa'. injection Hoa' as <-.
  rewrite Hpa in Hpa'. injection Hpa' as <-.
  assert (extends vm v1 /\
          (Memory_Get vm oa = None -> in_bounds vm oa ->
           data (vm_memory v1) !! oa = Some (Op0 ops)) /\
          (forall b, b <> oa -> data (vm_memory v1) !! b = data (vm_memory vm) !! b))
    as (E1 & C1 & O1).
  { destruct (Memory_Get vm oa) as [o|] eqn:Hg.
    - destruct H0 as (_ & _ & ->). split; [apply extends_refl|]. split; done.
    - pose proof (ComputeOp0Deductions_extends _ _ _ _ _ _ _ H0) as E1.
      apply ComputeOp0Deductions_Ok in H0 as ((r & m' & Hi & ->) & _).
      split; [done|]. split.
      + intros _ [Hb0 Hb1]. cbn. eapply Insert_stores; eauto.
        by apply Memory_Get_None.
      + intros b Hb. cbn. eapply Insert_other; eauto. }
  assert (extends v1 v2 /\
          (forall b, b <> pa -> data (vm_memory v2) !! b = data (vm_memory v1) !! b))
    as (E2 & O2).
  { destruct (Memory_Get vm pa) as [o|] eqn:Hg.
    - destruct H1 as (_ & ->). split; [apply extends_refl|done].
    - pose proof (ComputeOp1Deductions_extends _ _ _ _ _ _ _ _ H1) as E2.
      apply ComputeOp1Deductions_Ok in H1 as ((r & m' & Hi & ->) & _).
      split; [done|]. intros b Hb. cbn. eapply Insert_other; eauto. }
  assert (extends v2 vm') as E3.
  { destruct (Memory_Get vm da).
    - destruct H3 as (_ & ->). apply extends_refl.
    - destruct H3 as (_ & r & m' & Hi & ->). eapply with_memory_extends; eauto. }
  split.
  - intros Hb. destruct (Memory_Get vm oa) as [o|] eqn:Hg.
    + destruct H0 as (-> & _). by apply (extends_Get vm vm').
    + apply Memory_Get_Some. split; [apply Hb|].
      apply E3, E2. by apply C1.
  - intros Hb Hne1 Hne2. destruct (Memory_Get vm da) as [d|] eqn:Hg.
    + destruct H3 as (-> & _). by apply (extends_Get vm vm').
    + destruct H3 as (_ & r & m' & Hi & ->).
      apply Memory_Get_Some. split; [apply Hb|]. cbn.
      eapply Insert_stores; eauto; try apply Hb.
      * destruct E1 as (_ & _ & _ & _ & _ & _ & _ & N1 & _).
        destruct E2 as (_ & _ & _ & _ & _ & _ & _ & N2 & _).
        rewrite N2, N1. apply Hb.
      * rewrite O2, O1 by done. apply Memory_Get_None; [done|apply Hb].
Qed.

Lemma same_but_registers_refl v : same_but_registers v v.
Proof. by destruct v. Qed.

Lemma UpdateFp_inv instr ops v r v' :
  UpdateFp instr ops v = (r, v') ->
  same_but_registers v v' /\
  Pc (RunContext v') = Pc (RunContext v) /\ Ap (RunContext v') = Ap (RunContext v) /\
  (r <> Ok tt -> v' = v).
Proof.
  unfold UpdateFp. destruct (FpUpdate instr).
  - intros [= <- <-]. split; [apply same_but_registers_refl|done].
  - intros [= <- <-]. done.
  - destruct (GetRelocatable (Dst ops)) as [rel []].
    + intros [= <- <-]. done.
    + destruct (GetFelt (Dst ops)) as [felt ?].
      destruct (AddFelt _ _); intros [= <- <-];
        (split; [try apply same_but_registers_refl|]); done.
Qed.

Lemma UpdateAp_inv instr ops v r v' :
  UpdateAp instr ops v = (r, v') ->
  same_but_registers v v' /\
  Pc (RunContext v') = Pc (RunContext v) /\ Fp (RunContext v') = Fp (RunContext v) /\
  (r <> Ok tt -> v' = v).
Proof.
  unfold UpdateAp. destruct (ApUpdate instr).
  - intros [= <- <-]. split; [apply same_but_registers_refl|done].
  - destruct (Res ops) as [res|].
    + destruct (AddMaybeRelocatable _ _); intros [= <- <-];
        (split; [try apply same_but_registers_refl|]); done.
    + intros [= <- <-]. split; [apply same_but_registers_refl|done].
  - intros [= <- <-]. done.
  - intros [= <- <-]. done.
Qed.

Lemma UpdatePc_inv instr ops v r v' :
  UpdatePc instr ops v = (r, v') ->
  same_but_registers v v' /\
  Ap (RunContext v') = Ap (RunContext v) /\ Fp (RunContext v') = Fp (RunContext v) /\
  (r <> Ok tt -> v' = v).
Proof.
  unfold UpdatePc. destruct (PcUpdate instr).
  - intros [= <- <-]. done.
  - destruct (Res ops) as [res|].
    + destruct (GetRelocatable res) as [rel []]; intros [= <- <-];
        (split; [try apply same_but_registers_refl|]); done.
    + intros [= <- <-]. split; [apply same_but_registers_refl|done].
  - destruct (Res ops) as [res|].
    + destruct (GetFelt res) as [f []]; cbn.
      * destruct (AddFelt _ _); intros [= <- <-];
          (split; [try apply same_but_registers_refl|]); done.
      * intros [= <- <-]. split; [apply same_but_registers_refl|done].
    + intros [= <- <-]. split; [apply same_but_registers_refl|done].
  - destruct (IsZero (Dst ops)).
    + intros [= <- <-]. done.
    + destruct (AddMaybeRelocatable _ _); intros [= <- <-];
        (split; [try apply same_but_registers_refl|]); done.
Qed.

Lemma same_but_registers_trans v1 v2 v3 :
  same_but_registers v1 v2 -> same_but_registers v2 v3 -> same_but_registers v1 v3.
Proof. unfold same_but_registers. intros -> ->. done. Qed.

Lemma UpdateRegisters_same instr ops v r v' :
  UpdateRegisters instr ops v = (r, v') -> same_but_registers v v'.
Proof.
  unfold UpdateRegisters, bind.
  destruct (UpdateFp instr ops v) as [r1 v1] eqn:H1.
  apply UpdateFp_inv in H1 as (S1 & _).
  destruct r1; [|by intros [= <- <-]..].
  destruct (UpdateAp instr ops v1) as [r2 v2] eqn:H2.
  apply UpdateAp_inv in H2 as (S2 & _).
  destruct r2; [|intros [= <- <-]; eauto using same_but_registers_trans..].
  intros H3. apply UpdatePc_inv in H3 as (S3 & _).
  eauto using same_but_registers_trans.
Qed.


Lemma RunInstruction_Ok instr vm vm' :
  RunInstruction instr vm = (Ok tt, vm') ->
  exists ops v1 v2,
    ComputeOperands instr vm = (Ok ops, v1) /\
    OpcodeAssertions v1 instr ops = Ok tt /\
    UpdateRegisters instr ops (set_Trace v1 (Trace v1 ++ [snapshot v1])) = (Ok tt, v2) /\
    vm' = set_CurrentStep v2 (wrap64 (CurrentStep v2 + 1)).
Proof.
  unfold RunInstruction. intros H.
  apply bind_Ok in H as (ops & v1 & Hc & H).
  apply bind_Ok in H as ([] & v1' & Ha & H).
  apply bind_Ok in H as ([] & v1'' & Ht & H).
  apply bind_Ok in H as ([] & v2 & Hu & H).
  injection Ha as Ha <-. injection Ht as <-. injection H as <-.
  exists ops, v1, v2. done.
Qed.



Section StepFacts.
Variable DecodeInstruction : Z -> Result Instruction.






End StepFacts.



(** C3. For an instruction of opcode ASSERT_EQ, [OpcodeAssertions] fails
    with UnconstrainedResAssertEq when res is nil, fails with
    DiffAssertValues when res is defined and differs from dst, and succeeds
    otherwise; so after a successful step of such an instruction res is
    defined and equal to dst. *)
Theorem assert_eq_assertion (vm : VirtualMachine) (instr : Instruction) :
  Opcode instr = AssertEq ->
  (forall ops, Res ops = None ->
      OpcodeAssertions vm instr ops = Err ErrUnconstrainedResAssertEq) /\
  (forall ops res, Res ops = Some res -> res <> Dst ops ->
      OpcodeAssertions vm instr ops = Err ErrDiffAssertValues) /\
  (forall ops res, Res ops = Some res -> res = Dst ops ->
      OpcodeAssertions vm instr ops = Ok tt) /\
  (forall vm', RunInstruction instr vm = (Ok tt, vm') ->
      exists ops v1, ComputeOperands instr vm = (Ok ops, v1) /\
                     Res ops = Some (Dst ops)).
Proof.
  intros Hop. unfold OpcodeAssertions. rewrite Hop.
  split; [|split; [|split]].
  - by intros ops ->.
  - intros ops res -> Hne.
    destruct (IsEqual res (Dst ops)) eqn:E; [|done]. by apply IsEqual_spec in E.
  - intros ops res -> <-.
    by rewrite (proj2 (IsEqual_spec res res) eq_refl).
  - intros vm' H. apply RunInstruction_Ok in H as (ops & v1 & v2 & Hc & Ha & _).
    exists ops, v1. split; [done|].
    unfold OpcodeAssertions in Ha. rewrite Hop in Ha.
    destruct (Res ops) as [res|]; [|done].
    destruct (IsEqual res (Dst ops)) eqn:E; [|done].
    apply IsEqual_spec in E. by subst.
Qed.

Lemma assert_eq_assertion_witness :
  Opcode assert_add = AssertEq /\
  OpcodeAssertions machine_assert assert_add
    {| Dst := MRFelt 5; Res := None; Op0 := MRFelt 2; Op1 := MRFelt 3 |}
  = Err ErrUnconstrainedResAssertEq /\
  OpcodeAssertions machine_assert assert_add
    {| Dst := MRFelt 5; Res := Some (MRFelt 6); Op0 := MRFelt 2; Op1 := MRFelt 3 |}
  = Err ErrDiffAssertValues /\
  OpcodeAssertions machine_assert assert_add
    {| Dst := MRFelt 5; Res := Some (MRFelt 5); Op0 := MRFelt 2; Op1 := MRFelt 3 |}
  = Ok tt /\
  exists ops v1,
    ComputeOperands assert_add machine_assert = (Ok ops, v1) /\
    Res ops = Some (Dst ops).
Proof.
  split; [reflexivity|].
  destruct (assert_eq_assertion machine_assert assert_add eq_refl)
    as (H1 & H2 & H3 & H4).
  split; [by apply H1|].
  split; [by apply (H2 _ (MRFelt 6))|].
  split; [by apply (H3 _ (MRFelt 5))|].
  apply (H4 (snd (RunInstruction assert_add machine_assert))).
  vm_compute. reflexivity.
Defined.

Lemma call_cells instr vm vm' da oa pa :
  RunInstruction instr vm = (Ok tt, vm') ->
  Opcode instr = Call ->
  ComputeDstAddr (RunContext vm) instr = Ok da ->
  ComputeOp0Addr (RunContext vm) instr = Ok oa ->
  ComputeOp1Addr (RunContext vm) instr (Memory_Get vm oa) = Ok pa ->
  let pc := Pc (RunContext vm) in
  Offset pc + Size instr < 2 ^ 64 /\
  (in_bounds vm oa ->
   Memory_Get vm' oa
   = Some (MRRel (NewRelocatable (SegmentIndex pc) (Offset pc + Size instr)))) /\
  (in_bounds vm da -> da <> oa -> da <> pa ->
   Fp (RunContext vm) <> NewRelocatable 0 0 ->
   Memory_Get vm' da = Some (MRRel (Fp (RunContext vm)))).
Proof.
  intros H Hop Hda Hoa Hpa pc.
  apply RunInstruction_Ok in H as (ops & v1 & v2 & Hc & Ha & Hu & ->).
  pose proof (ComputeOperands_extends _ _ _ _ Hc) as (Hrc & _).
  destruct (ComputeOperands_cells _ _ _ _ _ _ _ Hc Hda Hoa Hpa) as [C0 Cd].
  apply UpdateRegisters_same in Hu. unfold same_but_registers in Hu.
  assert (forall a, Memory_Get (set_CurrentStep v2 (wrap64 (CurrentStep v2 + 1))) a
                    = Memory_Get v1 a) as Hmem.
  { intros a. rewrite Hu. reflexivity. }
  unfold OpcodeAssertions in Ha. rewrite Hop, Hrc in Ha. fold pc in Ha.
  unfold AddUint in Ha.
  destruct (Z.ltb_spec (Offset pc + Size instr) (2 ^ 64)) as [Hlt|]; [|done].
  destruct (IsEqual (Op0 ops) _) eqn:E0; [|done]. apply IsEqual_spec in E0.
  destruct (GetRelocatable (Dst ops)) as [dstRelocatable ok] eqn:Ed.
  destruct (Relocatable_IsEqual (Fp (RunContext vm)) dstRelocatable) eqn:E1; [|done].
  apply Relocatable_IsEqual_spec in E1.
  split; [done|]. split.
  - intros Hb. rewrite Hmem, (C0 Hb), E0. done.
  - intros Hb Hn1 Hn2 Hfp. rewrite Hmem, (Cd Hb Hn1 Hn2).
    destruct (Dst ops) as [f|r]; cbn in Ed; injection Ed as <- <-; congruence.
Qed.

(** C4, as amended. After a successful step of an instruction of opcode
    CALL, the cell at the op0 address of the instruction holds
    [pc + size(instruction)] and the cell at its dst address holds [fp],
    where the two addresses are the ones the register selectors and offsets
    of the instruction designate; this for addresses in allocated segments,
    a dst address distinct from the op0 and op1 addresses, and [fp] other
    than [(0,0)].  For dst = [[ap]] and op0 = [[ap + 1]] this is
    [memory[ap] = fp] and [memory[ap + 1] = pc + size]. *)
Theorem call_stores_return_frame :
  (forall instr vm vm' da oa pa,
      RunInstruction instr vm = (Ok tt, vm') ->
      Opcode instr = Call ->
      ComputeDstAddr (RunContext vm) instr = Ok da ->
      ComputeOp0Addr (RunContext vm) instr = Ok oa ->
      ComputeOp1Addr (RunContext vm) instr (Memory_Get vm oa) = Ok pa ->
      let pc := Pc (RunContext vm) in
      Offset pc + Size instr < 2 ^ 64 /\
      (in_bounds vm oa ->
       Memory_Get vm' oa
       = Some (MRRel (NewRelocatable (SegmentIndex pc) (Offset pc + Size instr)))) /\
      (in_bounds vm da -> da <> oa -> da <> pa ->
       Fp (RunContext vm) <> NewRelocatable 0 0 ->
       Memory_Get vm' da = Some (MRRel (Fp (RunContext vm))))) /\
  (forall instr vm vm' pa,
      RunInstruction instr vm = (Ok tt, vm') ->
      Opcode instr = Call ->
      DstReg instr = AP -> Off0 instr = 0 -> Op0Reg instr = AP -> Off1 instr = 1 ->
      let pc := Pc (RunContext vm) in
      let ap := Ap (RunContext vm) in
      let ap1 := NewRelocatable (SegmentIndex ap) (Offset ap + 1) in
      ComputeOp1Addr (RunContext vm) instr (Memory_Get vm ap1) = Ok pa ->
      in_bounds vm ap -> pa <> ap ->
      Fp (RunContext vm) <> NewRelocatable 0 0 ->
      Memory_Get vm' ap = Some (MRRel (Fp (RunContext vm))) /\
      Memory_Get vm' ap1
      = Some (MRRel (NewRelocatable (SegmentIndex pc) (Offset pc + Size instr)))).
Proof.
  split; [exact call_cells|].
  intros instr vm vm' pa H Hop Hd H0 Ho H1 pc ap ap1 Hpa Hb Hne Hfp.
  pose proof H as H'.
  apply RunInstruction_Ok in H' as (ops & v1 & v2 & Hc & _).
  apply ComputeOperands_Ok in Hc as (da & oa & _ & _ & _ & _ & Hda & Hoa & _).
  assert (da = ap) as ->.
  { revert Hda. unfold ComputeDstAddr, add_i64_offset. rewrite Hd, H0. fold ap.
    destruct (_ && _); [|done]. intros [= <-]. rewrite Z.add_0_r. by destruct ap. }
  assert (oa = ap1) as ->.
  { revert Hoa. unfold ComputeOp0Addr, add_i64_offset. rewrite Ho, H1. fold ap.
    destruct (_ && _); [|done]. by intros [= <-]. }
  destruct (call_cells _ _ _ _ _ _ H Hop Hda Hoa Hpa) as (_ & C0 & Cd).
  split.
  - apply Cd; try done. intros Heq. apply (f_equal Offset) in Heq. cbn in Heq. lia.
  - apply C0. exact Hb.
Qed.

(** C4 does not hold for every CALL: when dst is [[ap + 1]] and op0 is
    [[ap]] the step succeeds, [memory[ap]] holds the return pc and
    [memory[ap + 1]] the old fp. *)
Lemma call_frame_counterexample :
  Opcode call_swapped = Call /\
  fst (RunInstruction call_swapped machine_call) = Ok tt /\
  Ap (RunContext machine_call) = NewRelocatable 1 2 /\
  Fp (RunContext machine_call) = NewRelocatable 1 2 /\
  Memory_Get (snd (RunInstruction call_swapped machine_call)) (NewRelocatable 1 2)
  = Some (MRRel (NewRelocatable 0 2)) /\
  Memory_Get (snd (RunInstruction call_swapped machine_call)) (NewRelocatable 1 3)
  = Some (MRRel (NewRelocatable 1 2)).
Proof. vm_compute. repeat split. Qed.

Lemma call_stores_return_frame_witness :
  Memory_Get (snd (RunInstruction call_rel machine_call)) (NewRelocatable 1 2)
  = Some (MRRel (NewRelocatable 1 2)) /\
  Memory_Get (snd (RunInstruction call_rel machine_call)) (NewRelocatable 1 3)
  = Some (MRRel (NewRelocatable 0 2)) /\
  Memory_Get (snd (RunInstruction call_swapped machine_call)) (NewRelocatable 1 3)
  = Some (MRRel (NewRelocatable 1 2)).
Proof.
  split; [|split].
  - apply (proj2 call_stores_return_frame call_rel machine_call
             (snd (RunInstruction call_rel machine_call)) (NewRelocatable 0 1));
      try (vm_compute; reflexivity); try (vm_compute; discriminate).
    split; vm_compute; [discriminate|reflexivity].
  - apply (proj2 call_stores_return_frame call_rel machine_call
             (snd (RunInstruction call_rel machine_call)) (NewRelocatable 0 1));
      try (vm_compute; reflexivity); try (vm_compute; discriminate).
    split; vm_compute; [discriminate|reflexivity].
  - apply (proj1 call_stores_return_frame call_swapped machine_call
             (snd (RunInstruction call_swapped machine_call))
             (NewRelocatable 1 3) (NewRelocatable 1 2) (NewRelocatable 0 1));
      try (vm_compute; reflexivity); try (vm_compute; discriminate).
    split; vm_compute; [discriminate|reflexivity].
Defined.




(** C7, as amended. For an instruction of opcode ASSERT_EQ, [DeduceOp1]
    returns [op1 = dst] and [res = dst] when the res logic is OP1; for ADD
    with dst and op0 known it returns [op1 = dst - op0] and [res = dst] when
    the subtraction is defined and the error of the subtraction otherwise;
    for ADD with dst or op0 missing it returns nil without error; for MUL
    with dst and op0 present it returns [op1 = dst / op0] and [res = dst]
    when both are felts and op0 is not zero, and nil without error
    otherwise; for an unconstrained res it returns nil. *)
Theorem DeduceOp1_assert_eq (vm : VirtualMachine) (instr : Instruction)
  (dst op0 : option MaybeRelocatable) :
  Opcode instr = AssertEq ->
  (ResLogic instr = ResOp1 -> DeduceOp1 vm instr dst op0 = Ok (dst, dst)) /\
  (ResLogic instr = ResAdd ->
   forall d o, dst = Some d -> op0 = Some o ->
     (forall x, MaybeRelocatable_Sub d o = Ok x ->
                DeduceOp1 vm instr dst op0 = Ok (Some x, dst)) /\
     (forall e, MaybeRelocatable_Sub d o = Err e ->
                DeduceOp1 vm instr dst op0 = Err e)) /\
  (ResLogic instr = ResAdd -> dst = None \/ op0 = None ->
   DeduceOp1 vm instr dst op0 = Ok (None, None)) /\
  (ResLogic instr = ResMul ->
   forall d o, dst = Some (MRFelt d) -> op0 = Some (MRFelt o) -> o <> 0 ->
     DeduceOp1 vm instr dst op0 = Ok (Some (MRFelt (Div d o)), dst)) /\
  (ResLogic instr = ResMul ->
   forall d o, dst = Some d -> op0 = Some o ->
     (exists r, d = MRRel r) \/ (exists r, o = MRRel r) \/ o = MRFelt 0 ->
     DeduceOp1 vm instr dst op0 = Ok (None, None)) /\
  (ResLogic instr = ResUnconstrained ->
   DeduceOp1 vm instr dst op0 = Ok (None, None)).
Proof.
  intros Hop. unfold DeduceOp1. rewrite Hop.
  split; [|split; [|split; [|split; [|split]]]].
  - by intros ->.
  - intros -> d o -> ->. split.
    + by intros x ->.
    + by intros e ->.
  - intros -> [->| ->]; [by destruct op0|done].
  - intros -> d o -> -> Ho. cbn.
    unfold lambdaworks.IsZero, FeltZero. by rewrite bool_decide_eq_false_2.
  - intros -> d o -> -> [[r ->]|[[r ->]| ->]]; cbn; try done.
    + by destruct o.
    + by destruct d.
    + by destruct d.
  - by intros ->.
Qed.

(** C7 does not hold where the subtraction is undefined (its error is
    returned) nor where dst or op0 is nil under MUL (the call panics;
    [DeduceOp0] tests both pointers before it reads them). *)
Lemma DeduceOp1_counterexample :
  Opcode assert_add = AssertEq /\ ResLogic assert_add = ResAdd /\
  DeduceOp1 machine_assert assert_add
    (Some (MRFelt 5)) (Some (MRRel (NewRelocatable 1 0))) = Err "RelocatableSub" /\
  Opcode assert_mul = AssertEq /\ ResLogic assert_mul = ResMul /\
  DeduceOp1 machine_assert assert_mul None (Some (MRFelt 2)) = Panic /\
  DeduceOp1 machine_assert assert_mul (Some (MRFelt 6)) None = Panic.
Proof. repeat split. Qed.

Lemma DeduceOp1_assert_eq_witness :
  DeduceOp1 machine_assert assert_add (Some (MRFelt 5)) (Some (MRFelt 2))
  = Ok (Some (MRFelt 3), Some (MRFelt 5)) /\
  DeduceOp1 machine_assert assert_add (Some (MRFelt 5)) (Some (MRRel (NewRelocatable 1 0)))
  = Err "RelocatableSub" /\
  DeduceOp1 machine_assert assert_mul (Some (MRFelt 6)) (Some (MRFelt 2))
  = Ok (Some (MRFelt (Div 6 2)), Some (MRFelt 6)).
Proof.
  split; [|split].
  - apply (proj1 (proj2 (DeduceOp1_assert_eq machine_assert assert_add
             (Some (MRFelt 5)) (Some (MRFelt 2)) eq_refl)) eq_refl
             (MRFelt 5) (MRFelt 2) eq_refl eq_refl).
    vm_compute. reflexivity.
  - apply (proj1 (proj2 (DeduceOp1_assert_eq machine_assert assert_add
             (Some (MRFelt 5)) (Some (MRRel (NewRelocatable 1 0))) eq_refl)) eq_refl
             (MRFelt 5) (MRRel (NewRelocatable 1 0)) eq_refl eq_refl).
    vm_compute. reflexivity.
  - apply (proj1 (proj2 (proj2 (proj2 (DeduceOp1_assert_eq machine_assert assert_mul
             (Some (MRFelt 6)) (Some (MRFelt 2)) eq_refl)))) eq_refl 6 2 eq_refl eq_refl).
    discriminate.
Defined.

Lemma bind_inv {A B} (c : VM A) (k : A -> VM B) v r v' :
  bind c k v = (r, v') ->
  (exists r1, c v = (r1, v') /\ forall a, r1 <> Ok a) \/
  (exists a v1, c v = (Ok a, v1) /\ k a v1 = (r, v')).
Proof.
  unfold bind. destruct (c v) as [[a| |] v1]; [eauto| |];
    intros [= <- <-]; left; eexists; split; done.
Qed.








(** *** The update of fp by a call *)

Lemma UpdateFp_ap_plus_2 instr ops v :
  FpUpdate instr = FpUpdateAPPlus2 ->
  UpdateFp instr ops v
  = (Ok tt, set_Fp v (NewRelocatable (SegmentIndex (Fp (RunContext v)))
                                     (wrap64 (Offset (Ap (RunContext v)) + 2)))).
Proof. intros H. unfold UpdateFp. by rewrite H. Qed.

(** C5. With [fp = (2, 0)] and [ap = (1, 4)], the AP_PLUS_2 update leaves
    [fp = (2, 6)]: the offset is [ap.offset + 2], the segment index is still
    the one of [fp], not the one of [ap]. *)
Lemma UpdateFp_keeps_fp_segment :
  FpUpdate call_rel = FpUpdateAPPlus2 /\
  Ap (RunContext machine_split) = NewRelocatable 1 4 /\
  Fp (RunContext machine_split) = NewRelocatable 2 0 /\
  forall ops,
    UpdateFp call_rel ops machine_split
    = (Ok tt, set_Fp machine_split (NewRelocatable 2 6)).
Proof. repeat split. Qed.

(** *** The dropped errors of Insert *)

Lemma Memory_Insert_no_error v a val r v' :
  Memory_Insert_ v a val = (r, v') -> forall e, r <> Err e.
Proof.
  unfold Memory_Insert_. destruct (Insert _ _ _) as [[[]|e0|] m]; by intros [= <- <-].
Qed.

(** C8. On [machine_builtin], op0 and op1 are both read at [(2, 0)], which is
    free.  The builtin deduces op0 = 1, which is inserted; for op1 the
    builtin has no deduction any more, [DeduceOp1] returns dst = 5, and the
    insert of 5 at [(2, 0)] returns the write-once error.  The error is
    dropped: [ComputeOperands] and the step succeed with op1 = 5 while the
    cell holds 1. *)
Lemma insert_conflict_dropped :
  let a := NewRelocatable 2 0 in
  let dst := Some (MRFelt 5) in
  let v1 := snd (ComputeOp0Deductions a assert_same_cell dst None machine_builtin) in
  ComputeOp0Addr (RunContext machine_builtin) assert_same_cell = Ok a /\
  ComputeOp1Addr (RunContext machine_builtin) assert_same_cell None = Ok a /\
  Memory_Get machine_builtin a = None /\
  ComputeOp0Deductions a assert_same_cell dst None machine_builtin
  = (Ok (MRFelt 1, None), v1) /\
  Memory_Get v1 a = Some (MRFelt 1) /\
  DeduceMemoryCell v1 a = Ok None /\
  DeduceOp1 v1 assert_same_cell dst None = Ok (dst, dst) /\
  fst (Insert (vm_memory v1) a dst) = Err ErrInconsistent /\
  fst (ComputeOp1Deductions a assert_same_cell dst None None v1) = Ok (MRFelt 5) /\
  fst (ComputeOperands assert_same_cell machine_builtin)
  = Ok {| Dst := MRFelt 5; Res := Some (MRFelt 5); Op0 := MRFelt 1; Op1 := MRFelt 5 |} /\
  fst (RunInstruction assert_same_cell machine_builtin) = Ok tt /\
  Memory_Get (snd (RunInstruction assert_same_cell machine_builtin)) a = Some (MRFelt 1).
Proof. vm_compute. repeat split. Qed.

End vm_facts.

(** * Further properties *)

(** ** The memory *)

Module memory_more.
Import lambdaworks memory samples memory_facts.

(** A successful [Insert] is read back by [Get]; and an [Insert] into an
    allocated segment at a cell that is free, or holds the same value, leaves
    the value readable whatever it returns: the cell is written before the
    validation rule runs, so a rule's error does not undo the write. *)
Theorem Insert_then_Get (m m' : Memory) (addr : Relocatable) (v : MaybeRelocatable)
  (r : Result unit) :
  Insert m addr (Some v) = (r, m') ->
  (r = Ok tt -> fst (Get m' addr) = Ok v) /\
  (0 <= SegmentIndex addr -> SegmentIndex addr < int_of_uint (num_segments m) ->
   data m !! addr = None \/ data m !! addr = Some v ->
   fst (Get m' addr) = Ok v).
Proof.
  intros H.
  pose proof (Insert_inv _ _ _ _ _ H) as (_ & _ & [(_ & Hne & _)|(H0 & H1 & Hc & Hd)]).
  - split; [done|]. intros H0 H1 Hc. apply Get_Some. split; [done|].
    destruct Hc as [Hc|Hc].
    + eapply Insert_stores; eauto.
    + eapply Insert_mono; eauto.
  - assert (fst (Get m' addr) = Ok v) as Hg.
    { apply Get_Some. split; [done|]. rewrite Hd. apply lookup_insert_eq. }
    done.
Qed.

Lemma Insert_then_Get_witness :
  let addr := NewRelocatable 1 3 in
  fst (Insert memory_ruled addr (Some (MRRel addr))) = Err "expected a felt" /\
  fst (Get (snd (Insert memory_ruled addr (Some (MRRel addr)))) addr) = Ok (MRRel addr) /\
  fst (Get (snd (Insert memory_ruled addr (Some (MRFelt 9)))) addr) = Ok (MRFelt 9).
Proof.
  intros addr. split; [vm_compute; reflexivity|]. split.
  - apply (proj2 (Insert_then_Get memory_ruled _ addr (MRRel addr) _ eq_refl)).
    + vm_compute. discriminate.
    + vm_compute. reflexivity.
    + left. vm_compute. reflexivity.
  - apply (proj1 (Insert_then_Get memory_ruled _ addr (MRFelt 9) _ eq_refl)).
    vm_compute. reflexivity.
Defined.

(** Whatever [Insert] returns, every cell that could be read before reads
    the same afterwards, the cells at other addresses are as before, and the
    segment count and the validation rules are unchanged. *)
Theorem Insert_keeps_cells (m m' : Memory) (addr : Relocatable) (v : MaybeRelocatable)
  (r : Result unit) :
  Insert m addr (Some v) = (r, m') ->
  (forall b w, fst (Get m b) = Ok w -> fst (Get m' b) = Ok w) /\
  (forall b, b <> addr -> fst (Get m' b) = fst (Get m b)) /\
  num_segments m' = num_segments m /\
  validation_rules m' = validation_rules m.
Proof.
  intros H. pose proof (Insert_inv _ _ _ _ _ H) as (Hn & Hr & _).
  split; [|split; [|done]].
  - intros b w. rewrite !Get_Some. intros [? ?]. split; [done|].
    eapply Insert_mono; eauto.
  - intros b Hb. unfold Get.
    rewrite (Insert_other _ _ _ b _ _ H); [|by intros ->].
    destruct (_ <? 0); [done|]. by destruct (data m !! b).
Qed.

Lemma Insert_keeps_cells_witness :
  let m' := snd (Insert memory_ruled (NewRelocatable 1 0) (Some (MRFelt 7))) in
  fst (Insert memory_ruled (NewRelocatable 1 0) (Some (MRFelt 7))) = Err ErrInconsistent /\
  fst (Get m' (NewRelocatable 1 0)) = Ok (MRFelt 2) /\
  fst (Get m' (NewRelocatable 1 1)) = fst (Get memory_ruled (NewRelocatable 1 1)).
Proof.
  intros m'. split; [vm_compute; reflexivity|].
  destruct (Insert_keeps_cells memory_ruled m' (NewRelocatable 1 0) (MRFelt 7) _ eq_refl)
    as (H1 & H2 & _).
  split.
  - apply H1. vm_compute. reflexivity.
  - apply H2. discriminate.
Defined.

Lemma Contains_Add_eq (set : AddressSet) (element : Relocatable) :
  Contains (AddressSet_Add set element) element = true.
Proof.
  unfold Contains, AddressSet_Add, AddressSet in *. by rewrite lookup_insert_eq.
Qed.

Lemma Contains_Add_ne (set : AddressSet) (element other : Relocatable) :
  other <> element ->
  Contains (AddressSet_Add set element) other = Contains set other.
Proof.
  intros Hne. unfold Contains, AddressSet_Add, AddressSet in *.
  by rewrite lookup_insert_ne.
Qed.

(** The address set: an added element is contained, adding it changes the
    answer for no other element, and a new set contains nothing. *)
Theorem AddressSet_Add_Contains (set : AddressSet) (element other : Relocatable) :
  Contains (AddressSet_Add set element) element = true /\
  (other <> element ->
   Contains (AddressSet_Add set element) other = Contains set other) /\
  Contains NewAddressSet element = false.
Proof.
  split; [apply Contains_Add_eq|]. split; [apply Contains_Add_ne|].
  unfold Contains, NewAddressSet, AddressSet in *. by rewrite lookup_empty.
Qed.

Lemma AddressSet_Add_Contains_witness :
  Contains (AddressSet_Add NewAddressSet (NewRelocatable 1 0)) (NewRelocatable 1 1)
  = Contains NewAddressSet (NewRelocatable 1 1).
Proof.
  apply (proj1 (proj2 (AddressSet_Add_Contains NewAddressSet
                         (NewRelocatable 1 0) (NewRelocatable 1 1)))).
  discriminate.
Defined.

Lemma fold_Add_Contains (l : list Relocatable) (s : AddressSet) (a : Relocatable) :
  Contains (fold_left AddressSet_Add l s) a = true <->
  Contains s a = true \/ a ∈ l.
Proof.
  revert s. induction l as [|x l IH]; intros s; cbn.
  - split; [by left|]. intros [?|H]; [done|]. by apply elem_of_nil in H.
  - rewrite IH. rewrite elem_of_cons.
    destruct (decide (a = x)) as [->|Hne].
    + rewrite Contains_Add_eq. intuition auto.
    + rewrite Contains_Add_ne by done. intuition auto.
Qed.

Lemma validateAddress_grows (m m' : Memory) (addr : Relocatable) (r : Result unit) :
  validateAddress m addr = (r, m') ->
  forall a, Contains (validated_addresses m) a = true ->
            Contains (validated_addresses m') a = true.
Proof.
  unfold validateAddress. destruct (_ || _); [by intros [= <- <-]|].
  destruct (validation_rules m !! _) as [rule|]; [|by intros [= <- <-]].
  destruct (rule (view m) addr) as [l| |]; intros [= <- <-]; try done.
  intros a Ha. apply fold_Add_Contains. by left.
Qed.

(** [validateAddress] never touches cells, segment count or rules; the
    validated set only grows; a result other than nil leaves the memory as
    it was; an address already validated is skipped; and when the rule of
    the segment accepts, the validated set becomes the old one plus exactly
    the addresses the rule returned. *)
Theorem validateAddress_validated (m m' : Memory) (addr : Relocatable) (r : Result unit) :
  validateAddress m addr = (r, m') ->
  data m' = data m /\ num_segments m' = num_segments m /\
  validation_rules m' = validation_rules m /\
  (forall a, Contains (validated_addresses m) a = true ->
             Contains (validated_addresses m') a = true) /\
  (r <> Ok tt -> m' = m) /\
  (Contains (validated_addresses m) addr = true -> r = Ok tt /\ m' = m) /\
  (forall rule validated,
      0 <= SegmentIndex addr ->
      Contains (validated_addresses m) addr = false ->
      validation_rules m !! wrap64 (SegmentIndex addr) = Some rule ->
      rule (view m) addr = Ok validated ->
      r = Ok tt /\
      forall a, Contains (validated_addresses m') a = true <->
                Contains (validated_addresses m) a = true \/ a ∈ validated).
Proof.
  intros H. pose proof (validateAddress_fields _ _ _ _ H) as (Hd & Hn & Hr).
  do 3 (split; [done|]).
  revert H. unfold validateAddress.
  destruct (Z.ltb_spec (SegmentIndex addr) 0) as [Hneg|Hpos]; cbn.
  { intros [= <- <-]. split; [done|]. split; [done|]. split; [done|]. lia. }
  destruct (Contains (validated_addresses m) addr) eqn:Hc; cbn.
  { intros [= <- <-]. done. }
  destruct (validation_rules m !! _) as [rule|] eqn:Hrule.
  2:{ intros [= <- <-]. done. }
  destruct (rule (view m) addr) as [l| |] eqn:Hl; intros [= <- <-]; cbn.
  - split; [intros a Ha; apply fold_Add_Contains; by left|].
    split; [done|]. split; [done|].
    intros rule' l' _ _ [= <-]. rewrite Hl. intros [= <-].
    split; [done|]. intros a. apply fold_Add_Contains.
  - split; [done|]. split; [done|]. split; [done|].
    intros rule' l' _ _ [= <-]. by rewrite Hl.
  - split; [done|]. split; [done|]. split; [done|].
    intros rule' l' _ _ [= <-]. by rewrite Hl.
Qed.

Lemma validateAddress_validated_witness :
  let m := set_data memory_ruled (<[NewRelocatable 1 5 := MRFelt 3]> (data memory_ruled)) in
  fst (validateAddress m (NewRelocatable 1 5)) = Ok tt /\
  Contains (validated_addresses (snd (validateAddress m (NewRelocatable 1 5))))
    (NewRelocatable 1 5) = true.
Proof.
  intros m.
  destruct (validateAddress_validated m _ (NewRelocatable 1 5) _ eq_refl)
    as (_ & _ & _ & _ & _ & _ & H).
  destruct (H felt_rule [NewRelocatable 1 5]) as [H1 H2];
    try (vm_compute; reflexivity); [vm_compute; discriminate|].
  split; [exact H1|]. apply H2. right. apply list_elem_of_singleton. reflexivity.
Defined.

(** A rule installed with [AddValidationRule] is run by the next [Insert]
    into its segment (at a free, not yet validated cell of an allocated
    segment), on the memory that already holds the new cell: its error is
    the result of the [Insert] and the cell stays written; its list of
    addresses is added to the validated set. *)
Theorem Insert_runs_added_rule (m : Memory) (segment_index : Z) (rule : ValidationRule)
  (addr : Relocatable) (v : MaybeRelocatable) :
  0 <= segment_index < 2 ^ 64 ->
  SegmentIndex addr = segment_index ->
  segment_index < int_of_uint (num_segments m) ->
  data m !! addr = None ->
  Contains (validated_addresses m) addr = false ->
  let m1 := AddValidationRule m segment_index rule in
  let stored := set_data m1 (<[addr := v]> (data m)) in
  (forall e, rule (view stored) addr = Err e ->
             Insert m1 addr (Some v) = (Err e, stored)) /\
  (forall validated, rule (view stored) addr = Ok validated ->
     Insert m1 addr (Some v)
     = (Ok tt, set_validated_addresses stored
                 (fold_left AddressSet_Add validated (validated_addresses m)))).
Proof.
  intros Hs Hseg Hlt Hfree Hnv m1 stored.
  assert (Insert m1 addr (Some v) = validateAddress stored addr) as ->.
  { unfold Insert. rewrite Hseg.
    destruct (Z.ltb_spec segment_index 0); [lia|].
    change (num_segments m1) with (num_segments m).
    destruct (segment_index >=? _) eqn:E.
    { rewrite Z.geb_leb in E. apply Z.leb_le in E. lia. }
    change (data m1) with (data m). by rewrite Hfree. }
  unfold validateAddress. rewrite Hseg.
  destruct (Z.ltb_spec segment_index 0); [lia|]. cbn.
  rewrite Hnv.
  assert (wrap64 segment_index = segment_index) as ->
    by (unfold wrap64; apply Z.mod_small; lia).
  rewrite lookup_insert_eq.
  split.
  - by intros e ->.
  - by intros l ->.
Qed.

Lemma Insert_runs_added_rule_witness :
  let m := memory_of 2 [] in
  let addr := NewRelocatable 1 0 in
  Insert (AddValidationRule m 1 felt_rule) addr (Some (MRRel addr))
  = (Err "expected a felt",
     set_data (AddValidationRule m 1 felt_rule) (<[addr := MRRel addr]> (data m))).
Proof.
  intros m addr.
  apply (proj1 (Insert_runs_added_rule m 1 felt_rule addr (MRRel addr)
                  ltac:(lia) eq_refl ltac:(vm_compute; reflexivity) eq_refl eq_refl)).
  vm_compute. reflexivity.
Defined.

(** A new memory has no segment: every [Insert] fails with the
    negative-segment or the unallocated-segment error and every [Get]
    fails, the memory staying as it is. *)
Theorem NewMemory_rejects (addr : Relocatable) (val : option MaybeRelocatable) :
  (exists e, Insert NewMemory addr val = (Err e, NewMemory) /\
             (e = ErrNegativeSegment \/ e = ErrUnallocatedSegment)) /\
  (exists e, Get NewMemory addr = (Err e, NewMemory)).
Proof.
  split.
  - destruct (Z.lt_ge_cases (SegmentIndex addr) 0).
    + exists ErrNegativeSegment. split; [|by left].
      unfold Insert. destruct (Z.ltb_spec (SegmentIndex addr) 0); [done|lia].
    + exists ErrUnallocatedSegment. split; [|by right].
      unfold Insert. destruct (Z.ltb_spec (SegmentIndex addr) 0); [lia|].
      change (int_of_uint (num_segments NewMemory)) with 0.
      destruct (SegmentIndex addr >=? 0) eqn:E; [done|].
      rewrite Z.geb_leb in E. apply Z.leb_gt in E. lia.
  - unfold Get. destruct (_ <? 0); [by eexists|]. cbn.
    rewrite lookup_empty. by eexists.
Qed.

Lemma validate_addresses_inv (order : list Relocatable) (m m' : Memory) (r : Result unit) :
  validate_addresses order m = (r, m') ->
  data m' = data m /\ num_segments m' = num_segments m /\
  validation_rules m' = validation_rules m /\
  (forall a, Contains (validated_addresses m) a = true ->
             Contains (validated_addresses m') a = true) /\
  (forall e, r = Err e ->
     exists addr rule, addr ∈ order /\
       validation_rules m !! wrap64 (SegmentIndex addr) = Some rule /\
       rule (view m) addr = Err e).
Proof.
  revert m. induction order as [|addr rest IH]; intros m; cbn.
  - intros [= <- <-]. repeat split; done.
  - destruct (validateAddress m addr) as [r1 m1] eqn:H1.
    pose proof (validateAddress_fields _ _ _ _ H1) as (Hd & Hn & Hr).
    pose proof (validateAddress_grows _ _ _ _ H1) as Hv.
    destruct r1 as [[]|e1|].
    + intros H. apply IH in H as (Hd' & Hn' & Hr' & Hv' & He').
      split; [congruence|]. split; [congruence|]. split; [congruence|].
      split; [auto|].
      intros e He. destruct (He' e He) as (a & rule & Ha & Hrule & Hres).
      exists a, rule. split; [by apply elem_of_cons; right|].
      split; [congruence|].
      assert (view m1 = view m) as <-; [|done].
      unfold view. by rewrite Hd, Hn.
    + intros [= <- <-]. do 4 (split; [done|]).
      intros e [= ->]. revert H1. unfold validateAddress.
      destruct (_ || _); [done|].
      destruct (validation_rules m !! _) as [rule|] eqn:Hrule; [|done].
      destruct (rule (view m) addr) eqn:Hres; intros [= <-].
      exists addr, rule. split; [by apply elem_of_cons; left|done].
    + intros [= <- <-]. do 4 (split; [done|]). done.
Qed.

Lemma validate_addresses_accepts (order : list Relocatable) (m : Memory) :
  (forall addr rule, addr ∈ order ->
     validation_rules m !! wrap64 (SegmentIndex addr) = Some rule ->
     exists validated, rule (view m) addr = Ok validated) ->
  fst (validate_addresses order m) = Ok tt.
Proof.
  revert m. induction order as [|addr rest IH]; intros m Hacc; cbn; [done|].
  destruct (validateAddress m addr) as [r1 m1] eqn:H1.
  pose proof (validateAddress_fields _ _ _ _ H1) as (Hd & Hn & Hr).
  assert (r1 = Ok tt) as ->.
  { revert H1. unfold validateAddress.
    destruct (_ || _); [by intros [= <-]|].
    destruct (validation_rules m !! _) as [rule|] eqn:Hrule; [|by intros [= <-]].
    destruct (Hacc addr rule) as (l & ->); [by apply elem_of_cons; left|done|].
    by intros [= <-]. }
  apply IH. intros a rule Ha Hrule.
  assert (view m1 = view m) as -> by (unfold view; by rewrite Hd, Hn).
  apply Hacc; [by apply elem_of_cons; right|congruence].
Qed.

(** [ValidateExistingMemory], in whatever order it visits the stored
    addresses: it changes neither cells, segment count nor rules; the
    validated set only grows; an error it returns is the error of the rule
    of some stored address; and when the rule of every stored address
    accepts it returns nil. *)
Theorem ValidateExistingMemory_spec (order : list Relocatable) (m m' : Memory)
  (r : Result unit) :
  (forall a, a ∈ order <-> is_Some (data m !! a)) ->
  ValidateExistingMemory order m = (r, m') ->
  data m' = data m /\ num_segments m' = num_segments m /\
  validation_rules m' = validation_rules m /\
  (forall a, Contains (validated_addresses m) a = true ->
             Contains (validated_addresses m') a = true) /\
  (forall e, r = Err e ->
     exists addr rule, is_Some (data m !! addr) /\
       validation_rules m !! wrap64 (SegmentIndex addr) = Some rule /\
       rule (view m) addr = Err e) /\
  ((forall addr rule, is_Some (data m !! addr) ->
      validation_rules m !! wrap64 (SegmentIndex addr) = Some rule ->
      exists validated, rule (view m) addr = Ok validated) ->
   r = Ok tt).
Proof.
  intros Hord H. unfold ValidateExistingMemory in H.
  pose proof (validate_addresses_inv _ _ _ _ H) as (Hd & Hn & Hr & Hv & He).
  do 4 (split; [done|]). split.
  - intros e Hre. destruct (He e Hre) as (a & rule & Ha & ?).
    exists a, rule. split; [by apply Hord|done].
  - intros Hacc.
    pose proof (validate_addresses_accepts order m) as Hok.
    rewrite H in Hok. apply Hok. intros a rule Ha. apply Hacc. by apply Hord.
Qed.

Lemma ValidateExistingMemory_spec_witness :
  let order := [NewRelocatable 1 0] in
  fst (ValidateExistingMemory order memory_ruled) = Ok tt /\
  data (snd (ValidateExistingMemory order memory_ruled)) = data memory_ruled.
Proof.
  intros order.
  assert (forall a, a ∈ order <-> is_Some (data memory_ruled !! a)) as Hord.
  { intros a. unfold order. rewrite list_elem_of_singleton.
    change (data memory_ruled) with
      (<[NewRelocatable 1 0 := MRFelt 2]> (∅ : gmap Relocatable MaybeRelocatable)).
    rewrite lookup_insert_is_Some, lookup_empty. split; [by left|].
    intros [->|[_ H]]; [done|]. by destruct H. }
  destruct (ValidateExistingMemory_spec order memory_ruled _ _ Hord eq_refl)
    as (Hd & _ & _ & _ & _ & Hacc).
  split; [|exact Hd].
  apply Hacc. intros addr rule [w Hw] Hrule.
  assert (addr = NewRelocatable 1 0) as ->.
  { apply list_elem_of_singleton. apply Hord. by exists w. }
  vm_compute in Hrule. injection Hrule as <-. by eexists.
Defined.

End memory_more.

(** ** The step engine *)

Module vm_more.
Import lambdaworks memory segments vm samples memory_facts vm_facts memory_more.

Lemma MaybeRelocatable_Sub_no_panic a b : MaybeRelocatable_Sub a b <> Panic.
Proof.
  destruct a as [x|r], b as [y|s]; cbn; try done.
  - unfold SubFelt, ToU64, add_i64_offset.
    destruct (_ && _); [|done]. by destruct (_ && _).
  - by case_bool_decide.
Qed.

Lemma MaybeRelocatable_Add_no_panic a b : MaybeRelocatable_Add a b <> Panic.
Proof.
  destruct a as [x|r], b as [y|s]; cbn; try done;
    unfold AddFelt, ToU64, AddUint; (destruct (_ && _); [|done]); by destruct (_ <? _).
Qed.

(** [DeduceOp0] never panics (it tests both pointers before it reads them).
    For CALL it returns [pc + size] (offset wrapped) and no res; for NOP and
    RET nothing; for ASSERT_EQ under ADD with dst and op1 known [dst - op1]
    and [res = dst], or the error of the subtraction; under MUL with felts
    and op1 not zero it returns [dst / op1] and [res = dst]; in the other
    cases nothing, without error. *)
Theorem DeduceOp0_spec (vm : VirtualMachine) (instr : Instruction)
  (dst op1 : option MaybeRelocatable) :
  DeduceOp0 vm instr dst op1 <> Panic /\
  (Opcode instr = Call ->
   DeduceOp0 vm instr dst op1
   = Ok (Some (MRRel (NewRelocatable
                        (SegmentIndex (Pc (RunContext vm)))
                        (wrap64 (Offset (Pc (RunContext vm)) + Size instr)))),
         None)) /\
  (Opcode instr = NOp \/ Opcode instr = Ret ->
   DeduceOp0 vm instr dst op1 = Ok (None, None)) /\
  (Opcode instr = AssertEq ->
   dst = None \/ op1 = None \/ ResLogic instr = ResOp1 \/
   ResLogic instr = ResUnconstrained ->
   DeduceOp0 vm instr dst op1 = Ok (None, None)) /\
  (Opcode instr = AssertEq -> ResLogic instr = ResAdd ->
   forall d o, dst = Some d -> op1 = Some o ->
     (forall x, MaybeRelocatable_Sub d o = Ok x ->
                DeduceOp0 vm instr dst op1 = Ok (Some x, dst)) /\
     (forall e, MaybeRelocatable_Sub d o = Err e ->
                DeduceOp0 vm instr dst op1 = Err e)) /\
  (Opcode instr = AssertEq -> ResLogic instr = ResMul ->
   forall d o, dst = Some (MRFelt d) -> op1 = Some (MRFelt o) -> o <> 0 ->
     DeduceOp0 vm instr dst op1 = Ok (Some (MRFelt (Div d o)), dst)) /\
  (Opcode instr = AssertEq -> ResLogic instr = ResMul ->
   forall d o, dst = Some d -> op1 = Some o ->
     (exists r, d = MRRel r) \/ (exists r, o = MRRel r) \/ o = MRFelt 0 ->
     DeduceOp0 vm instr dst op1 = Ok (None, None)).
Proof.
  unfold DeduceOp0.
  split; [|split; [|split; [|split; [|split; [|split]]]]].
  - destruct (Opcode instr); try done.
    destruct (ResLogic instr), dst as [d|], op1 as [o|]; try done.
    + pose proof (MaybeRelocatable_Sub_no_panic d o).
      by destruct (MaybeRelocatable_Sub d o).
    + destruct (GetFelt d), (GetFelt o). by destruct (_ && _).
  - by intros ->.
  - by intros [-> | ->].
  - intros -> Hc.
    destruct (ResLogic instr), dst as [d|], op1 as [o|]; try done;
      by destruct Hc as [?|[?|[?|?]]].
  - intros -> -> d o -> ->. split.
    + by intros x ->.
    + by intros e ->.
  - intros -> -> d o -> -> Ho. cbn.
    unfold lambdaworks.IsZero, FeltZero. by rewrite bool_decide_eq_false_2.
  - intros -> -> d o -> -> [[r ->]|[[r ->]| ->]]; cbn; try done.
    + by destruct o.
    + by destruct d.
    + by destruct d.
Qed.

Lemma DeduceOp0_spec_witness :
  DeduceOp0 machine_call call_rel None None
  = Ok (Some (MRRel (NewRelocatable 0 2)), None) /\
  DeduceOp0 machine_assert assert_add (Some (MRFelt 5)) (Some (MRFelt 3))
  = Ok (Some (MRFelt 2), Some (MRFelt 5)) /\
  DeduceOp0 machine_assert assert_mul None (Some (MRFelt 2)) = Ok (None, None).
Proof.
  split; [|split].
  - apply (proj1 (proj2 (DeduceOp0_spec machine_call call_rel None None))).
    reflexivity.
  - apply (proj1 (proj2 (proj2 (proj2 (proj2
             (DeduceOp0_spec machine_assert assert_add
                (Some (MRFelt 5)) (Some (MRFelt 3)))))))
             eq_refl eq_refl (MRFelt 5) (MRFelt 3) eq_refl eq_refl).
    vm_compute. reflexivity.
  - apply (proj1 (proj2 (proj2 (proj2
             (DeduceOp0_spec machine_assert assert_mul None (Some (MRFelt 2))))))).
    + reflexivity.
    + by left.
Defined.

Lemma DeduceOp0_res instr vm dst op1 x r :
  DeduceOp0 vm instr dst op1 = Ok (x, Some r) ->
  ResLogic instr = ResAdd \/ ResLogic instr = ResMul.
Proof.
  unfold DeduceOp0. destruct (Opcode instr); try done.
  destruct (ResLogic instr); auto; by destruct dst, op1.
Qed.

Lemma ComputeRes_None vm instr op0 op1 :
  ComputeRes vm instr op0 op1 = Ok None <-> ResLogic instr = ResUnconstrained.
Proof.
  unfold ComputeRes. destruct (ResLogic instr); split; try done.
  - by destruct (MaybeRelocatable_Add op0 op1).
  - destruct (GetFelt op0), (GetFelt op1). by destruct (_ && _).
Qed.

(** After a successful [ComputeOperands] the res of the operands is nil
    exactly when the res logic of the instruction is unconstrained; so an
    ASSERT_EQ with an unconstrained res whose operands can be computed
    always fails with UnconstrainedResAssertEq. *)
Theorem res_nil_iff_unconstrained (instr : Instruction) (vm vm' : VirtualMachine)
  (ops : Operands) :
  ComputeOperands instr vm = (Ok ops, vm') ->
  (Res ops = None <-> ResLogic instr = ResUnconstrained) /\
  (Opcode instr = AssertEq -> ResLogic instr = ResUnconstrained ->
   OpcodeAssertions vm' instr ops = Err ErrUnconstrainedResAssertEq /\
   exists v'', RunInstruction instr vm = (Err ErrUnconstrainedResAssertEq, v'')).
Proof.
  intros H. pose proof H as H'.
  apply ComputeOperands_Ok in H'
    as (da & oa & pa & res0 & v1 & v2 & _ & _ & _ & H0 & _ & H2 & _).
  assert (Res ops = None <-> ResLogic instr = ResUnconstrained) as Hiff.
  { destruct res0 as [r|].
    - rewrite H2. split; [done|]. intros Hu.
      destruct (Memory_Get vm oa); [by destruct H0 as (_ & ? & _)|].
      apply ComputeOp0Deductions_Ok in H0 as (_ & [(_ & ?)|(_ & Hd)]); [done|].
      apply DeduceOp0_res in Hd as [?|?]; congruence.
    - rewrite <- (ComputeRes_None v2 instr (Op0 ops) (Op1 ops)), H2.
      split; [by intros ->|by intros [= ->]]. }
  split; [done|]. intros Hop Hu.
  assert (OpcodeAssertions vm' instr ops = Err ErrUnconstrainedResAssertEq) as Ha.
  { unfold OpcodeAssertions. rewrite Hop. by rewrite (proj2 Hiff Hu). }
  split; [done|]. exists vm'.
  unfold RunInstruction, bind. by rewrite H, Ha.
Qed.

Lemma res_nil_iff_unconstrained_witness :
  fst (ComputeOperands assert_free machine_assert)
  = Ok {| Dst := MRFelt 2; Res := None; Op0 := MRFelt 2; Op1 := MRFelt 3 |} /\
  exists v'', RunInstruction assert_free machine_assert
              = (Err ErrUnconstrainedResAssertEq, v'').
Proof.
  split; [vm_compute; reflexivity|].
  destruct (res_nil_iff_unconstrained assert_free machine_assert
              (snd (ComputeOperands assert_free machine_assert))
              {| Dst := MRFelt 2; Res := None; Op0 := MRFelt 2; Op1 := MRFelt 3 |})
    as (_ & H2); [vm_compute; reflexivity|].
  by apply H2.
Defined.

(** For a CALL whose return pc [pc + size] is defined, [OpcodeAssertions]
    succeeds exactly when op0 is that return pc and the relocatable read
    from dst is [fp]; it fails with CantWriteReturnPc when op0 differs, and
    with CantWriteReturnFp when op0 matches and dst does not. *)
Theorem call_assertion (vm : VirtualMachine) (instr : Instruction) (ops : Operands)
  (ret_pc : Relocatable) :
  Opcode instr = Call ->
  AddUint (Pc (RunContext vm)) (Size instr) = Ok ret_pc ->
  (OpcodeAssertions vm instr ops = Ok tt <->
   Op0 ops = MRRel ret_pc /\ fst (GetRelocatable (Dst ops)) = Fp (RunContext vm)) /\
  (Op0 ops <> MRRel ret_pc ->
   OpcodeAssertions vm instr ops = Err ErrCantWriteReturnPc) /\
  (Op0 ops = MRRel ret_pc ->
   fst (GetRelocatable (Dst ops)) <> Fp (RunContext vm) ->
   OpcodeAssertions vm instr ops = Err ErrCantWriteReturnFp).
Proof.
  intros Hop Hret. unfold OpcodeAssertions. rewrite Hop, Hret.
  unfold NewMaybeRelocatableRelocatable.
  destruct (GetRelocatable (Dst ops)) as [dstRelocatable ok] eqn:Ed. cbn [fst].
  destruct (IsEqual (Op0 ops) (MRRel ret_pc)) eqn:E0.
  - apply IsEqual_spec in E0.
    destruct (Relocatable_IsEqual (Fp (RunContext vm)) dstRelocatable) eqn:E1; cbn.
    + apply Relocatable_IsEqual_spec in E1. split; [done|]. split; [done|].
      intros _ Hne. by destruct Hne.
    + assert (dstRelocatable <> Fp (RunContext vm)) as Hne.
      { intros Heq. symmetry in Heq.
        apply Relocatable_IsEqual_spec in Heq. congruence. }
      split; [split; [done|by intros [_ ?]]|]. split; done.
  - assert (Op0 ops <> MRRel ret_pc) as Hne.
    { intros Heq. apply IsEqual_spec in Heq. congruence. }
    cbn. split; [split; [done|by intros [? _]]|]. split; done.
Qed.

Lemma call_assertion_witness :
  OpcodeAssertions machine_call call_rel
    {| Dst := MRFelt 4; Res := None; Op0 := MRRel (NewRelocatable 0 2); Op1 := MRFelt 4 |}
  = Err ErrCantWriteReturnFp /\
  OpcodeAssertions machine_call call_rel
    {| Dst := MRRel (NewRelocatable 1 2); Res := None;
       Op0 := MRRel (NewRelocatable 0 2); Op1 := MRFelt 4 |}
  = Ok tt.
Proof.
  split.
  - apply (proj2 (proj2 (call_assertion machine_call call_rel _ (NewRelocatable 0 2)
                           eq_refl eq_refl))); [reflexivity|discriminate].
  - apply (proj1 (call_assertion machine_call call_rel _ (NewRelocatable 0 2)
                    eq_refl eq_refl)). split; reflexivity.
Defined.

Lemma AddUint_segment r n r' : AddUint r n = Ok r' -> SegmentIndex r' = SegmentIndex r.
Proof. unfold AddUint. destruct (_ <? _); [|done]. by intros [= <-]. Qed.

Lemma AddFelt_segment r f r' : AddFelt r f = Ok r' -> SegmentIndex r' = SegmentIndex r.
Proof.
  unfold AddFelt. destruct (ToU64 f); [|done..]. apply AddUint_segment.
Qed.

Lemma AddMaybeRelocatable_segment r x r' :
  AddMaybeRelocatable r x = Ok r' -> SegmentIndex r' = SegmentIndex r.
Proof. destruct x; [apply AddFelt_segment|done]. Qed.

Lemma UpdateAp_segment instr ops v r v' :
  UpdateAp instr ops v = (r, v') ->
  SegmentIndex (Ap (RunContext v')) = SegmentIndex (Ap (RunContext v)).
Proof.
  unfold UpdateAp. destruct (ApUpdate instr); try by intros [= <- <-].
  destruct (Res ops) as [res|]; [|by intros [= <- <-]].
  destruct (AddMaybeRelocatable _ _) eqn:E; intros [= <- <-]; [|done..].
  by apply AddMaybeRelocatable_segment in E.
Qed.

Lemma UpdatePc_segment instr ops v r v' :
  UpdatePc instr ops v = (r, v') ->
  PcUpdate instr <> PcUpdateJump ->
  SegmentIndex (Pc (RunContext v')) = SegmentIndex (Pc (RunContext v)).
Proof.
  unfold UpdatePc. destruct (PcUpdate instr); try done.
  - by intros [= <- <-].
  - destruct (Res ops) as [res|]; [|by intros [= <- <-]].
    destruct (GetFelt res) as [f []]; cbn; [|by intros [= <- <-]].
    destruct (AddFelt _ _) eqn:E; intros [= <- <-] _; [|done..].
    by apply AddFelt_segment in E.
  - destruct (IsZero (Dst ops)); [by intros [= <- <-]|].
    destruct (AddMaybeRelocatable _ _) eqn:E; intros [= <- <-] _; [|done..].
    by apply AddMaybeRelocatable_segment in E.
Qed.

Lemma UpdateFp_segment instr ops v r v' :
  UpdateFp instr ops v = (r, v') ->
  FpUpdate instr <> FpUpdateDst ->
  SegmentIndex (Fp (RunContext v')) = SegmentIndex (Fp (RunContext v)).
Proof.
  unfold UpdateFp. destruct (FpUpdate instr); try done; by intros [= <- <-].
Qed.

Lemma UpdateRegisters_segments (instr : Instruction) (ops : Operands)
  (v v' : VirtualMachine) (r : Result unit) :
  UpdateRegisters instr ops v = (r, v') ->
  v' = set_RunContext v (RunContext v') /\
  SegmentIndex (Ap (RunContext v')) = SegmentIndex (Ap (RunContext v)) /\
  (PcUpdate instr <> PcUpdateJump ->
   SegmentIndex (Pc (RunContext v')) = SegmentIndex (Pc (RunContext v))) /\
  (FpUpdate instr <> FpUpdateDst ->
   SegmentIndex (Fp (RunContext v')) = SegmentIndex (Fp (RunContext v))).
Proof.
  intros H. split; [by apply UpdateRegisters_same in H|].
  unfold UpdateRegisters in H.
  assert (exists v1 v2 r1 r2 r3,
             UpdateFp instr ops v = (r1, v1) /\
             (v2 = v1 \/ UpdateAp instr ops v1 = (r2, v2)) /\
             (v' = v2 \/ UpdatePc instr ops v2 = (r3, v'))) as
      (v1 & v2 & r1 & r2 & r3 & Hf & Ha & Hp).
  { apply bind_inv in H as [(r1 & H & _)|([] & v1 & Hf & H)].
    { exists v', v', r1, r1, r1. auto. }
    apply bind_inv in H as [(r2 & H & _)|([] & v2 & Ha & H)].
    { exists v1, v', (Ok tt), r2, r2. auto. }
    exists v1, v2, (Ok tt), (Ok tt), r. auto. }
  pose proof (UpdateFp_inv _ _ _ _ _ Hf) as (_ & Pf & Af & _).
  assert (Pc (RunContext v2) = Pc (RunContext v1) /\
          Fp (RunContext v2) = Fp (RunContext v1) /\
          SegmentIndex (Ap (RunContext v2)) = SegmentIndex (Ap (RunContext v1)))
    as (Pa & Fa & Sa).
  { destruct Ha as [->|Ha]; [done|].
    pose proof (UpdateAp_inv _ _ _ _ _ Ha) as (_ & ? & ? & _).
    split; [done|]. split; [done|]. exact (UpdateAp_segment _ _ _ _ _ Ha). }
  assert (Ap (RunContext v') = Ap (RunContext v2) /\
          Fp (RunContext v') = Fp (RunContext v2) /\
          (PcUpdate instr <> PcUpdateJump ->
           SegmentIndex (Pc (RunContext v')) = SegmentIndex (Pc (RunContext v2))))
    as (Ap' & Fp' & Sp).
  { destruct Hp as [->|Hp]; [done|].
    pose proof (UpdatePc_inv _ _ _ _ _ Hp) as (_ & ? & ? & _).
    split; [done|]. split; [done|]. exact (UpdatePc_segment _ _ _ _ _ Hp). }
  split; [congruence|]. split.
  - intros Hj. rewrite (Sp Hj). congruence.
  - intros Hd. rewrite Fp', Fa. exact (UpdateFp_segment _ _ _ _ _ Hf Hd).
Qed.

(** Whatever [UpdateRegisters] returns, it has changed nothing but the run
    context; [ap] is still in its segment; [pc] is still in its segment
    unless the pc update is a jump; [fp] is still in its segment unless the
    fp update is DST. *)
Theorem UpdateRegisters_frame (instr : Instruction) (ops : Operands)
  (v v' : VirtualMachine) (r : Result unit) :
  UpdateRegisters instr ops v = (r, v') ->
  v' = set_RunContext v (RunContext v') /\
  SegmentIndex (Ap (RunContext v')) = SegmentIndex (Ap (RunContext v)) /\
  (PcUpdate instr <> PcUpdateJump ->
   SegmentIndex (Pc (RunContext v')) = SegmentIndex (Pc (RunContext v))) /\
  (FpUpdate instr <> FpUpdateDst ->
   SegmentIndex (Fp (RunContext v')) = SegmentIndex (Fp (RunContext v))).
Proof. apply UpdateRegisters_segments. Qed.

Lemma UpdateRegisters_frame_witness :
  let ops := {| Dst := MRRel (NewRelocatable 1 2); Res := Some (MRFelt 4);
                Op0 := MRRel (NewRelocatable 0 2); Op1 := MRFelt 4 |} in
  SegmentIndex (Pc (RunContext (snd (UpdateRegisters call_rel ops machine_call))))
  = SegmentIndex (Pc (RunContext machine_call)) /\
  SegmentIndex (Fp (RunContext (snd (UpdateRegisters call_rel ops machine_call))))
  = SegmentIndex (Fp (RunContext machine_call)).
Proof.
  intros ops.
  destruct (UpdateRegisters_frame call_rel ops machine_call _ _ eq_refl)
    as (_ & _ & Hp & Hf).
  split; [apply Hp|apply Hf]; discriminate.
Defined.

(** What a call of [RunInstruction] does to the machine, whatever it
    returns. *)
Lemma RunInstruction_frame instr v r v' :
  RunInstruction instr v = (r, v') ->
  exists v1, extends v v1 /\ Segments v' = Segments v1 /\
             BuiltinRunners v' = BuiltinRunners v1 /\
             SegmentIndex (Ap (RunContext v')) = SegmentIndex (Ap (RunContext v)) /\
             (Trace v' = Trace v \/ Trace v' = Trace v ++ [snapshot v]) /\
             (CurrentStep v' = CurrentStep v \/
              r = Ok tt /\ CurrentStep v' = wrap64 (CurrentStep v + 1)).
Proof.
  unfold RunInstruction. intros H.
  apply bind_inv in H as [(r1 & H & _)|(ops & v1 & Hc & H)].
  { pose proof (ComputeOperands_extends _ _ _ _ H) as E.
    pose proof E as (Hrc & Hcs & _ & Ht & _).
    exists v'. split; [exact E|]. split; [done|]. split; [done|].
    rewrite Hrc. split; [done|]. split; by left. }
  pose proof (ComputeOperands_extends _ _ _ _ Hc) as E.
  pose proof E as (Hrc & Hcs & _ & Ht & _).
  exists v1. split; [done|].
  apply bind_inv in H as [(r1 & [= _ <-] & _)|([] & v2 & [= _ <-] & H)].
  { rewrite Hrc. split; [done|]. split; [done|]. split; [done|]. split; by left. }
  apply bind_inv in H as [(r1 & [= _ <-] & _)|([] & v3 & [= <-] & H)].
  { cbn. rewrite Hrc. split; [done|]. split; [done|]. split; [done|].
    split; [right; unfold snapshot; by rewrite Hrc, Ht|by left]. }
  assert (forall r0 w, UpdateRegisters instr ops
                         (set_Trace v1 (Trace v1 ++ [snapshot v1])) = (r0, w) ->
            Segments w = Segments v1 /\ BuiltinRunners w = BuiltinRunners v1 /\
            SegmentIndex (Ap (RunContext w)) = SegmentIndex (Ap (RunContext v)) /\
            Trace w = Trace v ++ [snapshot v] /\ CurrentStep w = CurrentStep v) as Hupd.
  { intros r0 w Hu. apply UpdateRegisters_segments in Hu as (Hw & Hap & _).
    rewrite Hw. cbn. rewrite Hap. cbn. unfold snapshot. rewrite Hrc, Ht, Hcs. done. }
  apply bind_inv in H as [(r1 & H & _)|([] & v4 & Hu & [= <- <-])].
  - apply Hupd in H as (? & ? & ? & ? & ?).
    split; [done|]. split; [done|]. split; [done|]. split; [by right|by left].
  - apply Hupd in Hu as (? & ? & ? & ? & Hc4). cbn.
    split; [done|]. split; [done|]. split; [done|]. split; [by right|].
    right. split; [done|]. by rewrite Hc4.
Qed.



Lemma Step_frame decode v r v' :
  Step decode v = (r, v') ->
  exists v1, extends v v1 /\ Segments v' = Segments v1 /\
             BuiltinRunners v' = BuiltinRunners v1 /\
             SegmentIndex (Ap (RunContext v')) = SegmentIndex (Ap (RunContext v)).
Proof.
  assert (forall r0, (r0, v) = (r, v') ->
            exists v1, extends v v1 /\ Segments v' = Segments v1 /\
             BuiltinRunners v' = BuiltinRunners v1 /\
             SegmentIndex (Ap (RunContext v')) = SegmentIndex (Ap (RunContext v))) as Hid.
  { intros r0 [= _ <-]. exists v. split; [apply extends_refl|done]. }
  unfold Step. destruct (fst (Get _ _)) as [w| |]; [|by apply Hid..].
  destruct (GetFelt w) as [f []]; [|by apply Hid]. cbn.
  destruct (ToU64 f) as [u| |]; [|by apply Hid..].
  destruct (decode u) as [i| |]; [|by apply Hid..].
  intros H. apply RunInstruction_frame in H as (v1 & ? & ? & ? & ? & _).
  by exists v1.
Qed.

(** Over any number of steps, whatever the last one returns and whatever
    the decoder: every cell that could be read at the start reads the same
    at the end, the number of segments and the builtin runners are
    unchanged, and [ap] is still in its segment. *)
Theorem steps_keep_memory (decode : Z -> Result Instruction) (n : nat)
  (v v' : VirtualMachine) (r : Result unit) :
  Steps decode n v = (r, v') ->
  (forall a w, Memory_Get v a = Some w -> Memory_Get v' a = Some w) /\
  num_segments (vm_memory v') = num_segments (vm_memory v) /\
  BuiltinRunners v' = BuiltinRunners v /\
  SegmentIndex (Ap (RunContext v')) = SegmentIndex (Ap (RunContext v)).
Proof.
  revert v. induction n as [|n IH]; intros v; cbn.
  - by intros [= _ <-].
  - intros H.
    assert (exists r1 v1, Step decode v = (r1, v1) /\
                          (v' = v1 \/ Steps decode n v1 = (r, v'))) as
        (r1 & v1 & Hs & Hrest).
    { apply bind_inv in H as [(r1 & H & _)|([] & v1 & Hs & H)]; eauto 10. }
    apply Step_frame in Hs as (w & E & Hseg & Hb & Hap).
    assert ((forall a x, Memory_Get v a = Some x -> Memory_Get v1 a = Some x) /\
            num_segments (vm_memory v1) = num_segments (vm_memory v) /\
            BuiltinRunners v1 = BuiltinRunners v) as (M1 & N1 & B1).
    { pose proof E as (_ & _ & Hbw & _ & _ & _ & _ & Hn & _).
      split; [|split].
      - intros a x Ha. apply (extends_Get _ _ _ _ E) in Ha.
        revert Ha. unfold Memory_Get, vm_memory. by rewrite Hseg.
      - unfold vm_memory. by rewrite Hseg.
      - congruence. }
    destruct Hrest as [->|H2]; [done|].
    apply IH in H2 as (M2 & N2 & B2 & A2).
    split; [auto|]. split; [congruence|]. split; congruence.
Qed.

Lemma steps_keep_memory_witness :
  Memory_Get (snd (Steps decode_sample 2 machine_call)) (NewRelocatable 0 1)
  = Some (MRFelt 4).
Proof.
  apply (proj1 (steps_keep_memory decode_sample 2 machine_call _ _ eq_refl)).
  vm_compute. reflexivity.
Defined.

(** For a NOP or a RET whose dst cell cannot be read, [ComputeOperands]
    never succeeds; when op0 and op1 can be read and res can be computed it
    panics (the nil dst is dereferenced), and so does [RunInstruction], the
    machine being unchanged. *)
Theorem missing_dst_panics (instr : Instruction) (vm : VirtualMachine)
  (da oa pa : Relocatable) :
  Opcode instr = NOp \/ Opcode instr = Ret ->
  ComputeDstAddr (RunContext vm) instr = Ok da ->
  ComputeOp0Addr (RunContext vm) instr = Ok oa ->
  ComputeOp1Addr (RunContext vm) instr (Memory_Get vm oa) = Ok pa ->
  Memory_Get vm da = None ->
  (forall ops vm', ComputeOperands instr vm <> (Ok ops, vm')) /\
  (forall op0 op1 res,
      Memory_Get vm oa = Some op0 -> Memory_Get vm pa = Some op1 ->
      ComputeRes vm instr op0 op1 = Ok res ->
      ComputeOperands instr vm = (Panic, vm) /\
      RunInstruction instr vm = (Panic, vm)).
Proof.
  intros Hop Hda Hoa Hpa Hdst.
  assert (forall v res, DeduceDst v instr res = None) as Hdd.
  { intros v res. unfold DeduceDst. by destruct Hop as [-> | ->]. }
  split.
  - intros ops vm' H.
    apply ComputeOperands_Ok in H
      as (da' & oa' & pa' & res0 & v1 & v2 & Hda' & _ & _ & _ & _ & _ & H3).
    rewrite Hda in Hda'. injection Hda' as <-. rewrite Hdst in H3.
    destruct H3 as (H3 & _). by rewrite Hdd in H3.
  - intros op0 op1 res H0 H1 Hres.
    assert (ComputeOperands instr vm = (Panic, vm)) as Hc.
    { unfold ComputeOperands. rewrite Hda, Hoa, Hpa, Hdst, H0, H1.
      unfold bind, ret, panic. rewrite Hres. by rewrite Hdd. }
    split; [done|]. unfold RunInstruction, bind. by rewrite Hc.
Qed.

Lemma missing_dst_panics_witness :
  ComputeOperands jnz_ machine_assert = (Panic, machine_assert).
Proof.
  apply (proj2 (missing_dst_panics jnz_ machine_assert
                  (NewRelocatable 1 2) (NewRelocatable 1 0) (NewRelocatable 1 1)
                  (or_introl eq_refl) eq_refl eq_refl eq_refl eq_refl)
           (MRFelt 2) (MRFelt 3) None); reflexivity.
Defined.

(** For an instruction other than a CALL, when neither op0 nor op1 can be
    read and no builtin deduces op0, [ComputeOperands] and
    [RunInstruction] fail with the op0 deduction error and leave the machine
    unchanged. *)
Theorem two_missing_operands_fail (instr : Instruction) (vm : VirtualMachine)
  (da oa pa : Relocatable) :
  Opcode instr <> Call ->
  ComputeDstAddr (RunContext vm) instr = Ok da ->
  ComputeOp0Addr (RunContext vm) instr = Ok oa ->
  ComputeOp1Addr (RunContext vm) instr (Memory_Get vm oa) = Ok pa ->
  Memory_Get vm oa = None -> Memory_Get vm pa = None ->
  DeduceMemoryCell vm oa = Ok None ->
  ComputeOperands instr vm = (Err ErrFailedOp0, vm) /\
  RunInstruction instr vm = (Err ErrFailedOp0, vm).
Proof.
  intros Hop Hda Hoa Hpa H0 H1 Hb.
  assert (DeduceOp0 vm instr (Memory_Get vm da) None = Ok (None, None)) as Hd.
  { unfold DeduceOp0. destruct (Opcode instr); try done.
    by destruct (ResLogic instr), (Memory_Get vm da). }
  assert (ComputeOperands instr vm = (Err ErrFailedOp0, vm)) as Hc.
  { unfold ComputeOperands. rewrite Hda, Hoa. rewrite H0 in Hpa |- *.
    rewrite Hpa, H1. unfold bind at 1. unfold ComputeOp0Deductions.
    rewrite Hb. unfold bind, lift, fail. by rewrite Hd. }
  split; [done|]. unfold RunInstruction, bind. by rewrite Hc.
Qed.

Lemma two_missing_operands_fail_witness :
  ComputeOperands assert_add machine_call = (Err ErrFailedOp0, machine_call).
Proof.
  apply (proj1 (two_missing_operands_fail assert_add machine_call
                  (NewRelocatable 1 2) (NewRelocatable 1 0) (NewRelocatable 1 1)
                  ltac:(discriminate) eq_refl eq_refl eq_refl eq_refl eq_refl eq_refl)).
Defined.

Lemma Add_Sub_felt d a : 0 <= d < P -> lambdaworks.Add a (lambdaworks.Sub d a) = d.
Proof.
  intros Hd. unfold lambdaworks.Add, lambdaworks.Sub.
  rewrite Zplus_mod_idemp_r. replace (a + (d - a)) with d by lia.
  apply Z.mod_small. done.
Qed.

(** ASSERT_EQ under ADD with felts dst and op0 in memory and op1 missing
    (no builtin deduction, an insert that does not panic): [ComputeOperands]
    returns [op1 = dst - op0] and the recomputed [res = op0 + op1] is dst, so
    the assertion of the opcode passes; the deduced op1 is in memory when
    its address is in an allocated segment. *)
Theorem add_deduction_of_op1 (instr : Instruction) (vm : VirtualMachine)
  (da oa pa : Relocatable) (d a : Felt) :
  Opcode instr = AssertEq -> ResLogic instr = ResAdd ->
  ComputeDstAddr (RunContext vm) instr = Ok da ->
  ComputeOp0Addr (RunContext vm) instr = Ok oa ->
  ComputeOp1Addr (RunContext vm) instr (Memory_Get vm oa) = Ok pa ->
  Memory_Get vm da = Some (MRFelt d) -> 0 <= d < P ->
  Memory_Get vm oa = Some (MRFelt a) ->
  Memory_Get vm pa = None ->
  DeduceMemoryCell vm pa = Ok None ->
  fst (Insert (vm_memory vm) pa (Some (MRFelt (lambdaworks.Sub d a)))) <> Panic ->
  let ops := {| Dst := MRFelt d; Res := Some (MRFelt d);
                Op0 := MRFelt a; Op1 := MRFelt (lambdaworks.Sub d a) |} in
  let vm' := with_memory vm
               (snd (Insert (vm_memory vm) pa (Some (MRFelt (lambdaworks.Sub d a))))) in
  ComputeOperands instr vm = (Ok ops, vm') /\
  OpcodeAssertions vm' instr ops = Ok tt /\
  (in_bounds vm pa -> Memory_Get vm' pa = Some (MRFelt (lambdaworks.Sub d a))).
Proof.
  intros Hop Hres Hda Hoa Hpa Hd Hrange H0 H1 Hb Hnp ops vm'.
  assert (ComputeOperands instr vm = (Ok ops, vm')) as Hc.
  { unfold ComputeOperands. rewrite Hda, Hoa, Hpa, Hd, H0, H1.
    unfold bind at 1. unfold ret at 1.
    unfold bind at 1. unfold ComputeOp1Deductions. rewrite Hb.
    unfold DeduceOp1. rewrite Hop, Hres. cbn [MaybeRelocatable_Sub].
    unfold bind, lift, ret. unfold Memory_Insert_.
    subst vm'. destruct (Insert _ _ _) as [[[]|e|] m'] eqn:Hi; cbn [snd];
      try (by destruct Hnp);
      unfold ComputeRes; rewrite Hres; cbn [MaybeRelocatable_Add];
      by rewrite (Add_Sub_felt d a Hrange). }
  split; [done|]. split.
  - unfold OpcodeAssertions. rewrite Hop. cbn.
    by rewrite bool_decide_eq_true_2.
  - intros Hin.
    subst vm'. destruct (Insert _ _ _) as [r m'] eqn:Hi. cbn [snd].
    apply Memory_Get_Some. split; [apply Hin|]. cbn.
    eapply Insert_stores; eauto; try apply Hin.
    apply Memory_Get_None; [done|apply Hin].
Qed.

Lemma add_deduction_of_op1_witness :
  fst (ComputeOperands assert_add
         (machine (NewRelocatable 0 0) (NewRelocatable 1 3) (NewRelocatable 1 3)
            (memory_of 2 [(NewRelocatable 1 3, MRFelt 5); (NewRelocatable 1 1, MRFelt 2)])
            []))
  = Ok {| Dst := MRFelt 5; Res := Some (MRFelt 5); Op0 := MRFelt 2;
          Op1 := MRFelt (lambdaworks.Sub 5 2) |}.
Proof.
  pose proof (add_deduction_of_op1 assert_add
         (machine (NewRelocatable 0 0) (NewRelocatable 1 3) (NewRelocatable 1 3)
            (memory_of 2 [(NewRelocatable 1 3, MRFelt 5); (NewRelocatable 1 1, MRFelt 2)])
            [])
         (NewRelocatable 1 3) (NewRelocatable 1 1) (NewRelocatable 1 2) 5 2
         eq_refl eq_refl eq_refl eq_refl eq_refl eq_refl
         ltac:(vm_compute; split; [discriminate|reflexivity])
         eq_refl eq_refl eq_refl ltac:(vm_compute; discriminate)) as (H & _).
  by rewrite H.
Defined.

Lemma relocate_entries_Ok table entries v v' :
  relocate_entries table entries v = (Ok tt, v') ->
  v' = set_RelocatedTrace v (RelocatedTrace v') /\
  exists l, RelocatedTrace v' = RelocatedTrace v ++ l /\
            Forall2 (fun entry r => relocate_entry table entry = Ok r) entries l.
Proof.
  revert v. induction entries as [|entry rest IH]; intros v; cbn.
  - intros [= <-]. split; [by destruct v|]. exists []. by rewrite app_nil_r.
  - destruct (relocate_entry table entry) as [x|e|] eqn:E; [|done..].
    intros H. apply IH in H as (Hv & l & Hl & Hall). cbn in *.
    split; [by rewrite Hv|].
    exists (x :: l). split; [by rewrite Hl, <- app_assoc|]. by constructor.
Qed.

Lemma relocate_entry_Ok table entry r :
  relocate_entry table entry = Ok r ->
  exists pc ap fp,
    RelocateAddress (TraceEntry.Pc entry) table = Ok pc /\
    RelocateAddress (TraceEntry.Ap entry) table = Ok ap /\
    RelocateAddress (TraceEntry.Fp entry) table = Ok fp /\
    r = RelocatedTraceEntry.Build (FeltFromUint64 pc) (FeltFromUint64 ap)
                                  (FeltFromUint64 fp).
Proof.
  unfold relocate_entry.
  destruct (RelocateAddress (TraceEntry.Pc entry) table) as [pc| |]; [|done..].
  destruct (RelocateAddress (TraceEntry.Ap entry) table) as [ap| |]; [|done..].
  destruct (RelocateAddress (TraceEntry.Fp entry) table) as [fp| |]; [|done..].
  intros [= <-]. by exists pc, ap, fp.
Qed.

(** A successful [RelocateTrace] changes the relocated trace only: it
    appends to it one entry per trace entry, in order, each made of the
    relocated addresses of [pc], [ap] and [fp]; what was relocated before
    stays in front. *)
Theorem RelocateTrace_appends (table : list Z) (v v' : VirtualMachine) :
  RelocateTrace table v = (Ok tt, v') ->
  v' = set_RelocatedTrace v (RelocatedTrace v') /\
  exists l,
    RelocatedTrace v' = RelocatedTrace v ++ l /\
    length l = length (Trace v) /\
    forall i entry, Trace v !! i = Some entry ->
      exists pc ap fp,
        RelocateAddress (TraceEntry.Pc entry) table = Ok pc /\
        RelocateAddress (TraceEntry.Ap entry) table = Ok ap /\
        RelocateAddress (TraceEntry.Fp entry) table = Ok fp /\
        l !! i = Some (RelocatedTraceEntry.Build (FeltFromUint64 pc)
                         (FeltFromUint64 ap) (FeltFromUint64 fp)).
Proof.
  unfold RelocateTrace. destruct (_ <? 2); [done|].
  intros H. apply relocate_entries_Ok in H as (Hv & l & Hl & Hall).
  split; [done|]. exists l. split; [done|].
  split; [symmetry; by eapply Forall2_length|].
  intros i entry Hi.
  destruct (Forall2_lookup_l _ _ _ _ _ Hall Hi) as (r & Hr & Hrel).
  apply relocate_entry_Ok in Hrel as (pc & ap & fp & ? & ? & ? & ->).
  by exists pc, ap, fp.
Qed.

Lemma RelocateTrace_appends_witness :
  let v := snd (Steps decode_sample 1 machine_call) in
  length (RelocatedTrace (snd (RelocateTrace [1; 3; 7] (snd (RelocateTrace [1; 3; 7] v)))))
  = 2%nat.
Proof.
  intros v.
  destruct (RelocateTrace_appends [1; 3; 7] v (snd (RelocateTrace [1; 3; 7] v)))
    as (_ & l1 & E1 & L1 & _); [vm_compute; reflexivity|].
  destruct (RelocateTrace_appends [1; 3; 7] (snd (RelocateTrace [1; 3; 7] v))
              (snd (RelocateTrace [1; 3; 7] (snd (RelocateTrace [1; 3; 7] v)))))
    as (_ & l2 & E2 & L2 & _); [vm_compute; reflexivity|].
  rewrite E2, E1, !length_app, L2, L1. vm_compute. reflexivity.
Defined.

Lemma deduce_in_no_match runners addr m :
  (forall r, r ∈ runners -> SegmentIndex (builtins.Base r) <> SegmentIndex addr) ->
  deduce_in runners addr m = Ok None.
Proof.
  induction runners as [|r rest IH]; intros H; cbn; [done|].
  rewrite bool_decide_eq_false_2 by (apply H; by apply elem_of_cons; left).
  apply IH. intros r' Hr'. apply H. by apply elem_of_cons; right.
Qed.

Lemma deduce_in_first_match pre r post addr m :
  (forall r', r' ∈ pre -> SegmentIndex (builtins.Base r') <> SegmentIndex addr) ->
  SegmentIndex (builtins.Base r) = SegmentIndex addr ->
  deduce_in (pre ++ r :: post) addr m = builtins.DeduceMemoryCell r addr m.
Proof.
  induction pre as [|r0 pre IH]; intros H Hr; cbn.
  - by rewrite bool_decide_eq_true_2.
  - rewrite bool_decide_eq_false_2 by (apply H; by apply elem_of_cons; left).
    apply IH; [|done]. intros r' Hr'. apply H. by apply elem_of_cons; right.
Qed.

(** [DeduceMemoryCell] returns nil without error for an address of
    negative segment and when no builtin runner has its base in the segment
    of the address; otherwise it returns what the first such runner
    deduces. *)
Theorem DeduceMemoryCell_spec (vm : VirtualMachine) (addr : Relocatable) :
  (SegmentIndex addr < 0 -> DeduceMemoryCell vm addr = Ok None) /\
  ((forall r, r ∈ BuiltinRunners vm ->
      SegmentIndex (builtins.Base r) <> SegmentIndex addr) ->
   DeduceMemoryCell vm addr = Ok None) /\
  (forall pre r post,
      0 <= SegmentIndex addr ->
      BuiltinRunners vm = pre ++ r :: post ->
      (forall r', r' ∈ pre -> SegmentIndex (builtins.Base r') <> SegmentIndex addr) ->
      SegmentIndex (builtins.Base r) = SegmentIndex addr ->
      DeduceMemoryCell vm addr = builtins.DeduceMemoryCell r addr (vm_memory vm)).
Proof.
  unfold DeduceMemoryCell. split; [|split].
  - intros H. by destruct (Z.ltb_spec (SegmentIndex addr) 0); [|lia].
  - intros H. destruct (_ <? 0); [done|]. by apply deduce_in_no_match.
  - intros pre r post H0 -> Hpre Hr.
    destruct (Z.ltb_spec (SegmentIndex addr) 0); [lia|].
    by apply deduce_in_first_match.
Qed.

Lemma DeduceMemoryCell_spec_witness :
  DeduceMemoryCell machine_builtin (NewRelocatable (-1) 0) = Ok None /\
  DeduceMemoryCell machine_builtin (NewRelocatable 1 7) = Ok None /\
  DeduceMemoryCell machine_builtin (NewRelocatable 2 7) = Ok (Some (MRFelt 1)).
Proof.
  destruct (DeduceMemoryCell_spec machine_builtin (NewRelocatable (-1) 0)) as (H1 & _).
  destruct (DeduceMemoryCell_spec machine_builtin (NewRelocatable 1 7)) as (_ & H2 & _).
  destruct (DeduceMemoryCell_spec machine_builtin (NewRelocatable 2 7)) as (_ & _ & H3).
  split; [|split].
  - apply H1. reflexivity.
  - apply H2. intros r Hr. apply list_elem_of_singleton in Hr as ->. discriminate.
  - rewrite (H3 [] fill_builtin []); try reflexivity; [discriminate|].
    intros r' Hr'. by apply elem_of_nil in Hr'.
Defined.

(** When dst, op0 and op1 can all be read, [ComputeOperands] writes
    nothing: it returns the three values with the computed res, or the error
    of [ComputeRes], and the machine is unchanged. *)
Theorem operands_in_memory (instr : Instruction) (vm : VirtualMachine)
  (da oa pa : Relocatable) (dst op0 op1 : MaybeRelocatable) :
  ComputeDstAddr (RunContext vm) instr = Ok da ->
  ComputeOp0Addr (RunContext vm) instr = Ok oa ->
  ComputeOp1Addr (RunContext vm) instr (Some op0) = Ok pa ->
  Memory_Get vm da = Some dst ->
  Memory_Get vm oa = Some op0 ->
  Memory_Get vm pa = Some op1 ->
  (forall res, ComputeRes vm instr op0 op1 = Ok res ->
     ComputeOperands instr vm
     = (Ok {| Dst := dst; Res := res; Op0 := op0; Op1 := op1 |}, vm)) /\
  (forall e, ComputeRes vm instr op0 op1 = Err e ->
     ComputeOperands instr vm = (Err e, vm)).
Proof.
  intros Hda Hoa Hpa Hd H0 H1.
  unfold ComputeOperands. rewrite Hda, Hoa, H0, Hpa, H1, Hd.
  unfold bind, ret. split.
  - by intros res ->.
  - by intros e ->.
Qed.

Lemma operands_in_memory_witness :
  ComputeOperands ret_ machine_ret
  = (Ok {| Dst := MRRel (NewRelocatable 2 0); Res := Some (MRFelt 7);
           Op0 := MRFelt 7; Op1 := MRFelt 7 |}, machine_ret).
Proof.
  apply (proj1 (operands_in_memory ret_ machine_ret
                  (NewRelocatable 1 0) (NewRelocatable 1 1) (NewRelocatable 1 1)
                  (MRRel (NewRelocatable 2 0)) (MRFelt 7) (MRFelt 7)
                  eq_refl eq_refl eq_refl eq_refl eq_refl eq_refl)).
  reflexivity.
Defined.

(** After a successful [ComputeOperands], the cells at the dst, op0 and
    op1 addresses hold the operands it returned, read or deduced, when the
    three addresses are distinct and lie in allocated segments. *)
Theorem operands_are_stored (instr : Instruction) (vm vm' : VirtualMachine)
  (ops : Operands) (da oa pa : Relocatable) :
  ComputeOperands instr vm = (Ok ops, vm') ->
  ComputeDstAddr (RunContext vm) instr = Ok da ->
  ComputeOp0Addr (RunContext vm) instr = Ok oa ->
  ComputeOp1Addr (RunContext vm) instr (Memory_Get vm oa) = Ok pa ->
  in_bounds vm da -> in_bounds vm oa -> in_bounds vm pa ->
  da <> oa -> da <> pa -> oa <> pa ->
  Memory_Get vm' da = Some (Dst ops) /\
  Memory_Get vm' oa = Some (Op0 ops) /\
  Memory_Get vm' pa = Some (Op1 ops).
Proof.
  intros H Hda Hoa Hpa Bd Bo Bp Ndo Ndp Nop.
  destruct (ComputeOperands_cells _ _ _ _ _ _ _ H Hda Hoa Hpa) as [C0 Cd].
  split; [by apply Cd|]. split; [by apply C0|].
  apply ComputeOperands_Ok in H
    as (da' & oa' & pa' & res0 & v1 & v2 & Hda' & Hoa' & Hpa' & H0 & H1 & _ & H3).
  rewrite Hda in Hda'. injection Hda' as <-.
  rewrite Hoa in Hoa'. injection Hoa' as <-.
  rewrite Hpa in Hpa'. injection Hpa' as <-.
  assert (extends vm v1 /\
          (Memory_Get vm pa = None -> data (vm_memory v1) !! pa = None))
    as (E1 & F1).
  { destruct (Memory_Get vm oa) as [o|] eqn:Hg.
    - destruct H0 as (_ & _ & ->). split; [apply extends_refl|].
      intros Hn. apply Memory_Get_None; [done|apply Bp].
    - pose proof (ComputeOp0Deductions_extends _ _ _ _ _ _ _ H0) as E1.
      apply ComputeOp0Deductions_Ok in H0 as ((r & m' & Hi & ->) & _).
      split; [done|]. intros Hn. cbn.
      rewrite (Insert_other _ _ _ pa _ _ Hi) by done.
      apply Memory_Get_None; [done|apply Bp]. }
  assert (Memory_Get v2 pa = Some (Op1 ops)) as G2.
  { destruct (Memory_Get vm pa) as [o|] eqn:Hg.
    - destruct H1 as (-> & ->). by apply (extends_Get vm v1).
    - apply ComputeOp1Deductions_Ok in H1 as ((r & m' & Hi & ->) & _).
      apply Memory_Get_Some. split; [apply Bp|]. cbn.
      eapply Insert_stores; eauto; try apply Bp.
      destruct E1 as (_ & _ & _ & _ & _ & _ & _ & -> & _). apply Bp. }
  destruct (Memory_Get vm da).
  - by destruct H3 as (_ & ->).
  - destruct H3 as (_ & r & m' & Hi & ->).
    eapply extends_Get; [eapply with_memory_extends; eauto|done].
Qed.

Lemma operands_are_stored_witness :
  let v' := snd (ComputeOperands call_rel machine_call) in
  Memory_Get v' (NewRelocatable 1 2) = Some (MRRel (NewRelocatable 1 2)) /\
  Memory_Get v' (NewRelocatable 1 3) = Some (MRRel (NewRelocatable 0 2)) /\
  Memory_Get v' (NewRelocatable 0 1) = Some (MRFelt 4).
Proof.
  intros v'.
  apply (operands_are_stored call_rel machine_call v'
           {| Dst := MRRel (NewRelocatable 1 2); Res := Some (MRFelt 4);
              Op0 := MRRel (NewRelocatable 0 2); Op1 := MRFelt 4 |}
           (NewRelocatable 1 2) (NewRelocatable 1 3) (NewRelocatable 0 1));
    try (vm_compute; reflexivity); try discriminate;
    split; vm_compute; try discriminate; reflexivity.
Defined.

Lemma relocate_entries_frame table entries u r w :
  relocate_entries table entries u = (r, w) ->
  w = set_RelocatedTrace u (RelocatedTrace w).
Proof.
  revert u. induction entries as [|entry rest IH]; intros u; cbn.
  - intros [= _ <-]. by destruct u.
  - destruct (relocate_entry _ entry); [|intros [= _ <-]; by destruct u..].
    intros H. apply IH in H. by rewrite H.
Qed.

Lemma RelocateTrace_frame table u r w :
  RelocateTrace table u = (r, w) -> w = set_RelocatedTrace u (RelocatedTrace w).
Proof.
  unfold RelocateTrace. destruct (_ <? 2); [intros [= _ <-]; by destruct u|].
  apply relocate_entries_frame.
Qed.

(** [Relocate] never changes the trace, the registers, the step counter or
    the builtin runners; when it returns an error the relocated trace and
    the relocated memory are as before; when it returns nil on a non-empty
    trace the relocated memory is set. *)
Theorem Relocate_frame (v v' : VirtualMachine) (r : Result unit) :
  Relocate v = (r, v') ->
  Trace v' = Trace v /\ RunContext v' = RunContext v /\
  CurrentStep v' = CurrentStep v /\ BuiltinRunners v' = BuiltinRunners v /\
  (forall e, r = Err e ->
     RelocatedTrace v' = RelocatedTrace v /\ RelocatedMemory v' = RelocatedMemory v) /\
  (r = Ok tt -> Trace v <> [] -> RelocatedMemory v' <> None).
Proof.
  unfold Relocate. cbn.
  case_bool_decide as Hlen.
  { intros [= <- <-]. cbn. do 4 (split; [done|]). split; [done|].
    intros _ Hne. by destruct (Trace v). }
  destruct (RelocateMemory _ _) as [rm|e|]; [|by intros [= <- <-]..].
  destruct (RelocateTrace _ _) as [r1 w] eqn:E.
  apply RelocateTrace_frame in E.
  destruct r1 as [[]|e|]; intros [= <- <-]; rewrite E; cbn;
    do 4 (split; [done|]); split; done.
Qed.

Lemma Relocate_frame_witness :
  RelocatedMemory (snd (Relocate (snd (Steps decode_sample 1 machine_call)))) <> None.
Proof.
  apply (proj2 (proj2 (proj2 (proj2 (proj2
           (Relocate_frame (snd (Steps decode_sample 1 machine_call)) _ _ eq_refl)))))).
  - vm_compute. reflexivity.
  - vm_compute. discriminate.
Defined.

Lemma UpdateRegisters_fp_of_call instr ops v v' :
  UpdateRegisters instr ops v = (Ok tt, v') ->
  FpUpdate instr = FpUpdateAPPlus2 ->
  Fp (RunContext v')
  = NewRelocatable (SegmentIndex (Fp (RunContext v)))
                   (wrap64 (Offset (Ap (RunContext v)) + 2)).
Proof.
  intros H Hfp. unfold UpdateRegisters in H.
  apply bind_Ok in H as ([] & v1 & Hf & H).
  apply bind_Ok in H as ([] & v2 & Ha & Hp).
  rewrite (UpdateFp_ap_plus_2 _ _ _ Hfp) in Hf. injection Hf as <-.
  apply UpdateAp_inv in Ha as (_ & _ & Fa & _).
  apply UpdatePc_inv in Hp as (_ & _ & Fp' & _).
  by rewrite Fp', Fa.
Qed.

(** A CALL with dst = [[ap]], op0 = [[ap + 1]] followed by a RET
    (dst = [[fp - 2]], op1 = [[fp - 1]], jump to res, fp from dst): when [fp]
    and [ap] are in the same allocated segment before the call, the RET
    succeeds, [pc] is the address after the call and [fp] is the [fp] from
    before the call. *)
Theorem call_then_ret (call_i ret_i : Instruction) (v v1 : VirtualMachine) (pa : Relocatable) :
  let pc := Pc (RunContext v) in
  let ap := Ap (RunContext v) in
  let fp := Fp (RunContext v) in
  let ap1 := NewRelocatable (SegmentIndex ap) (Offset ap + 1) in
  Opcode call_i = Call -> DstReg call_i = AP -> Off0 call_i = 0 ->
  Op0Reg call_i = AP -> Off1 call_i = 1 -> FpUpdate call_i = FpUpdateAPPlus2 ->
  Opcode ret_i = Ret -> DstReg ret_i = FP -> Off0 ret_i = -2 ->
  Op0Reg ret_i = FP -> Off1 ret_i = -1 -> Op1Addr ret_i = Op1SrcFP -> Off2 ret_i = -1 ->
  ResLogic ret_i = ResOp1 -> PcUpdate ret_i = PcUpdateJump ->
  ApUpdate ret_i = ApUpdateRegular -> FpUpdate ret_i = FpUpdateDst ->
  SegmentIndex fp = SegmentIndex ap -> fp <> NewRelocatable 0 0 ->
  0 <= Offset ap -> Offset ap + 2 < 2 ^ 64 ->
  in_bounds v ap ->
  ComputeOp1Addr (RunContext v) call_i (Memory_Get v ap1) = Ok pa -> pa <> ap ->
  RunInstruction call_i v = (Ok tt, v1) ->
  exists v2,
    RunInstruction ret_i v1 = (Ok tt, v2) /\
    Pc (RunContext v2) = NewRelocatable (SegmentIndex pc) (Offset pc + Size call_i) /\
    Fp (RunContext v2) = fp /\
    Ap (RunContext v2) = Ap (RunContext v1).
Proof.
  intros pc ap fp ap1 Hc1 Hc2 Hc3 Hc4 Hc5 Hc6 Hr1 Hr2 Hr3 Hr4 Hr5 Hr6 Hr7 Hr8 Hr9
    Hr10 Hr11 Hseg Hfp Hoff0 Hoff Hin Hpa Hne Hrun.
  (* the cells written by the call_i *)
  assert (ComputeDstAddr (RunContext v) call_i = Ok ap) as Hda.
  { unfold ComputeDstAddr, add_i64_offset. rewrite Hc2, Hc3. fold ap.
    rewrite Z.add_0_r.
    destruct (Z.leb_spec 0 (Offset ap)); [|lia].
    destruct (Z.ltb_spec (Offset ap) (2 ^ 64)); [|lia]. cbn. by destruct ap. }
  assert (ComputeOp0Addr (RunContext v) call_i = Ok ap1) as Hoa.
  { unfold ComputeOp0Addr, add_i64_offset. rewrite Hc4, Hc5. fold ap.
    destruct (Z.leb_spec 0 (Offset ap + 1)); [|lia].
    by destruct (Z.ltb_spec (Offset ap + 1) (2 ^ 64)); [|lia]. }
  assert (ap <> ap1) as Hne1.
  { intros Heq. apply (f_equal Offset) in Heq. cbn in Heq. lia. }
  destruct (call_cells _ _ _ _ _ _ Hrun Hc1 Hda Hoa Hpa) as (Hsz & C0 & Cd).
  fold pc in Hsz, C0. fold fp in Cd.
  assert (Memory_Get v1 ap = Some (MRRel fp)) as Gd by (apply Cd; done).
  assert (Memory_Get v1 ap1
          = Some (MRRel (NewRelocatable (SegmentIndex pc) (Offset pc + Size call_i))))
    as G0 by (apply C0; exact Hin).
  (* the frame pointer after the call_i *)
  assert (Fp (RunContext v1) = NewRelocatable (SegmentIndex ap) (Offset ap + 2)) as Hfp1.
  { apply RunInstruction_Ok in Hrun as (ops & w1 & w2 & Hco & _ & Hu & ->).
    apply ComputeOperands_extends in Hco as (Hrc & _).
    apply UpdateRegisters_fp_of_call in Hu; [|done]. cbn in *. rewrite Hu, Hrc.
    fold fp ap. rewrite Hseg. f_equal. unfold wrap64. apply Z.mod_small. lia. }
  (* the ret_i reads them *)
  assert (ComputeDstAddr (RunContext v1) ret_i = Ok ap) as Rda.
  { unfold ComputeDstAddr, add_i64_offset. rewrite Hr2, Hr3, Hfp1. cbn.
    replace (Offset ap + 2 + -2) with (Offset ap) by lia.
    destruct (Z.leb_spec 0 (Offset ap)); [|lia].
    destruct (Z.ltb_spec (Offset ap) (2 ^ 64)); [|lia]. cbn. by destruct ap. }
  assert (ComputeOp0Addr (RunContext v1) ret_i = Ok ap1) as Roa.
  { unfold ComputeOp0Addr, add_i64_offset. rewrite Hr4, Hr5, Hfp1. cbn.
    replace (Offset ap + 2 + -1) with (Offset ap + 1) by lia.
    destruct (Z.leb_spec 0 (Offset ap + 1)); [|lia].
    by destruct (Z.ltb_spec (Offset ap + 1) (2 ^ 64)); [|lia]. }
  assert (forall o, ComputeOp1Addr (RunContext v1) ret_i o = Ok ap1) as Rpa.
  { intros o. unfold ComputeOp1Addr, add_i64_offset. rewrite Hr6, Hr7, Hfp1. cbn.
    replace (Offset ap + 2 + -1) with (Offset ap + 1) by lia.
    destruct (Z.leb_spec 0 (Offset ap + 1)); [|lia].
    by destruct (Z.ltb_spec (Offset ap + 1) (2 ^ 64)); [|lia]. }
  set (ret_pc := NewRelocatable (SegmentIndex pc) (Offset pc + Size call_i)) in *.
  assert (ComputeOperands ret_i v1
          = (Ok {| Dst := MRRel fp; Res := Some (MRRel ret_pc);
                   Op0 := MRRel ret_pc; Op1 := MRRel ret_pc |}, v1)) as Hops.
  { unfold ComputeOperands. rewrite Rda, Roa, Rpa, Gd, G0.
    unfold bind, vm.ret. unfold ComputeRes. by rewrite Hr8. }
  eexists. split.
  - unfold RunInstruction, bind. rewrite Hops.
    unfold OpcodeAssertions. rewrite Hr1.
    unfold append_trace, UpdateRegisters, bind.
    unfold UpdateFp. rewrite Hr11. cbn [Dst GetRelocatable].
    unfold UpdateAp. rewrite Hr10.
    unfold UpdatePc. rewrite Hr9. cbn [Res GetRelocatable negb].
    reflexivity.
  - cbn. done.
Qed.

Lemma call_then_ret_witness :
  let v1 := snd (RunInstruction call_rel machine_call) in
  exists v2,
    RunInstruction ret_ v1 = (Ok tt, v2) /\
    Pc (RunContext v2) = NewRelocatable 0 2 /\
    Fp (RunContext v2) = NewRelocatable 1 2 /\
    Ap (RunContext v2) = Ap (RunContext v1).
Proof.
  intros v1.
  apply (call_then_ret call_rel ret_ machine_call v1 (NewRelocatable 0 1));
    try reflexivity; try discriminate.
  split; vm_compute; [discriminate|reflexivity].
Defined.

End vm_more.
